(** * The tracing agent of node: [src/tracing/agent.h] and [src/node_trace_events.cc]

    A shallow embedding of the trace-event agent, of the move-only
    [AgentWriterHandle] that clients hold, of the [TracingController]
    clock adapter and of the [NodeCategorySet] binding objects, followed
    by the properties the specification states about them.

    The header declares the classes and defines the handle's methods
    inline.  The bodies of the [Agent] methods are in [agent.cc]; here they
    are modelled from the specification and are marked as such. *)

From Stdlib Require Import ZArith Lia Ascii.
From Stdlib Require OrderedTypeEx.
From stdpp Require Import base tactics option list sorting gmap strings.

Local Open Scope Z_scope.

(** ** Machine integers and pointers *)

Definition INT_MAX : Z := 2 ^ 31 - 1.
Definition UINT64_MAX : Z := 2 ^ 64 - 1.
Definition INT64_MAX : Z := 2 ^ 63 - 1.

(** Conversion of an integer value to [int64_t]: two's complement wrap. *)
Definition to_int64 (z : Z) : Z := (z + 2 ^ 63) mod 2 ^ 64 - 2 ^ 63.

(** Objects live at non-null addresses; a C++ pointer is [option ptr], with
    [None] for [nullptr]. *)
Abbreviation ptr := positive.

(** ** [std::set<std::string>] and [std::multiset<std::string>]

    Both containers keep their elements ordered by [std::string]'s [<],
    the byte-wise lexicographic order, which is [String.compare].  A set is
    a strictly increasing list, a multiset a non-decreasing one. *)
Module Std.

Fixpoint set_insert (x : string) (s : list string) : list string :=
  match s with
  | [] => [x]
  | y :: s' =>
      match String.compare x y with
      | Lt => x :: s
      | Eq => s
      | Gt => y :: set_insert x s'
      end
  end.

(** A set built by inserting the elements of [l] one after the other. *)
Definition set_of_list (l : list string) : list string :=
  foldl (fun s x => set_insert x s) [] l.

(** [multiset::insert(x)]: after the elements that are not greater. *)
Fixpoint multiset_insert (x : string) (m : list string) : list string :=
  match m with
  | [] => [x]
  | y :: m' =>
      if String.ltb x y then x :: m else y :: multiset_insert x m'
  end.

(** [auto it = m.find(x); if (it != m.end()) m.erase(it);]: one
    occurrence of [x] leaves, if there is one. *)
Fixpoint multiset_erase_one (x : string) (m : list string) : list string :=
  match m with
  | [] => []
  | y :: m' =>
      if String.eqb x y then m' else y :: multiset_erase_one x m'
  end.

(** [m.insert(first, last)] over the range [l]. *)
Definition multiset_insert_range (l m : list string) : list string :=
  foldl (fun m x => multiset_insert x m) m l.

Definition multiset_erase_range (l m : list string) : list string :=
  foldl (fun m x => multiset_erase_one x m) m l.

(** [m.count(x)]. *)
Definition count (x : string) (m : list string) : nat :=
  length (filter (fun y => y = x) m).

End Std.

(** ** [class TracingController] *)
Module TracingController.

(** [int64_t CurrentTimestampMicroseconds() override
     { return uv_hrtime() / 1000; }]

    [uv_hrtime] is libuv's monotonic clock, a [uint64_t] count of
    nanoseconds; its reading is the argument.  The division is the
    unsigned 64-bit one and the quotient is converted to the [int64_t]
    return type. *)
Definition CurrentTimestampMicroseconds (uv_hrtime : Z) : Z :=
  to_int64 (uv_hrtime `quot` 1000).

End TracingController.

(** ** [class Agent]: the data members

    The registry and the category table are [std::unordered_map]s keyed by
    the writer id.  They are kept as association lists with one entry per
    id, a new id going to the end: the specification speaks of the order in
    which ids were inserted.  The thread, the loop and the initialisation
    handshake ([thread_], [tracing_loop_], [started_],
    [initialize_writer_*], [to_be_initialized_]) play no part in what is
    proved here and are left out. *)
Module Table.
Section Table.
Context {V : Type}.

Definition t := list (Z * V).

(** [m.find(id)]. *)
Fixpoint find (id : Z) (m : t) : option V :=
  match m with
  | [] => None
  | (k, v) :: m' => if decide (k = id) then Some v else find id m'
  end.

(** [f(m[id])]: [operator[]] makes an entry holding [dflt] when there
    is none, and [f] then acts on the entry in place. *)
Fixpoint update (dflt : V) (f : V -> V) (id : Z) (m : t) : t :=
  match m with
  | [] => [(id, f dflt)]
  | (k, v) :: m' =>
      if decide (k = id) then (k, f v) :: m'
      else (k, v) :: update dflt f id m'
  end.

(** [m[id] = v]. *)
Definition assign (id : Z) (v : V) (m : t) : t :=
  update v (fun _ => v) id m.

(** [m.erase(id)]. *)
Fixpoint erase (id : Z) (m : t) : t :=
  match m with
  | [] => []
  | (k, v) :: m' =>
      if decide (k = id) then erase id m' else (k, v) :: erase id m'
  end.

Definition keys (m : t) : list Z := m.*1.
End Table.
Arguments t : clear implicits.
End Table.

(** A [TraceObject*] and an owned [AsyncTraceWriter] are known by their
    addresses only: the writers are external collaborators, and what the
    agent does to them shows as a sequence of calls. *)
Inductive WriterCall : Type :=
| WriterAppendTraceEvent (id : Z) (writer : ptr) (trace_event : ptr)
| WriterFlush (id : Z) (writer : ptr) (blocking : bool).

(** [class Agent], [class AgentWriterHandle] and, from the binding,
    [class NodeCategorySet] and the part of [Environment] it reads. *)
Record Agent : Type := {
  next_writer_id_ : Z;
  categories_ : Table.t (list string);
  writers_ : Table.t ptr;
  tracing_controller_ : option ptr
}.

(** [Agent* agent_ = nullptr; int id_;]: the default constructor leaves
    [id_] without a value, and the record then holds whatever was there. *)
Record AgentWriterHandle : Type := {
  agent_ : option ptr;
  id_ : Z
}.

(** [bool enabled_ = false; const std::set<std::string> categories_;]
    The field [categories_] is [set_categories_] here, the agent having a
    [categories_] of its own. *)
Record NodeCategorySet : Type := {
  enabled_ : bool;
  set_categories_ : list string
}.

Record Environment : Type := {
  tracing_agent_writer : option ptr
}.

Module Agent.

Inductive UseDefaultCategoryMode : Type :=
| kUseDefaultCategories
| kIgnoreDefaultCategories.

(** [enum { kDefaultHandleId = -1 };] *)
Definition kDefaultHandleId : Z := -1.

(** The member initialisers of the class: [next_writer_id_ = 1], empty
    maps.  The controller is made by the constructor and is a
    parameter. *)
Definition init (tracing_controller : option ptr) : Agent :=
  {| next_writer_id_ := 1;
     categories_ := [];
     writers_ := [];
     tracing_controller_ := tracing_controller |}.

(** [TracingController* GetTracingController()
     { return tracing_controller_; }] *)
Definition GetTracingController (a : Agent) : option ptr :=
  tracing_controller_ a.

(** Modelled from the spec: [Agent::AddClient], whose body is in
    [agent.cc].  "Assigns a fresh id; if mode requests default
    categories, unions them into the registration's category multiset
    ...  Returns a handle bound to the new id."  The id is the value of
    [next_writer_id_], which is then incremented; incrementing an [int]
    that holds [INT_MAX] has no defined result, and the call gives
    [None] there.  The default categories are those held under
    [kDefaultHandleId]. *)
Definition AddClient (categories : list string) (writer : ptr)
    (mode : UseDefaultCategoryMode) (a : Agent) : option (Z * Agent) :=
  let id := next_writer_id_ a in
  if decide (id < INT_MAX) then
    let defaults :=
      match mode with
      | kUseDefaultCategories =>
          default [] (Table.find kDefaultHandleId (categories_ a))
      | kIgnoreDefaultCategories => []
      end in
    let use_categories := Std.set_of_list (categories ++ defaults) in
    Some (id,
          {| next_writer_id_ := id + 1;
             categories_ :=
               Table.assign id (Std.multiset_insert_range use_categories [])
                 (categories_ a);
             writers_ := Table.assign id writer (writers_ a);
             tracing_controller_ := tracing_controller_ a |})
  else None.

(** Modelled from the spec: [Agent::Disconnect].  "Removes the
    registration for id from the registry and from the ref-count table
    ...  calling Disconnect for an id that is no longer present is a
    no-op." *)
Definition Disconnect (client : Z) (a : Agent) : Agent :=
  {| next_writer_id_ := next_writer_id_ a;
     categories_ := Table.erase client (categories_ a);
     writers_ := Table.erase client (writers_ a);
     tracing_controller_ := tracing_controller_ a |}.

(** Modelled from the spec: [Agent::Enable].  "Mutates the ref-count
    multiset for id: enable inserts each category string once per
    call." *)
Definition Enable (id : Z) (categories : list string) (a : Agent) : Agent :=
  {| next_writer_id_ := next_writer_id_ a;
     categories_ :=
       Table.update [] (Std.multiset_insert_range categories) id
         (categories_ a);
     writers_ := writers_ a;
     tracing_controller_ := tracing_controller_ a |}.

(** Modelled from the spec: [Agent::Disable].  "Disable removes one
    occurrence of each." *)
Definition Disable (id : Z) (categories : list string) (a : Agent) : Agent :=
  {| next_writer_id_ := next_writer_id_ a;
     categories_ :=
       Table.update [] (Std.multiset_erase_range categories) id
         (categories_ a);
     writers_ := writers_ a;
     tracing_controller_ := tracing_controller_ a |}.

(** Modelled from the spec: the "union of all ids' nonempty multisets" that
    [Agent::GetEnabledCategories] joins.  The categories of the table, each
    once, in the order in which the table is walked: a category stands
    where it is met first. *)
Fixpoint uniq (l : list string) : list string :=
  match l with
  | [] => []
  | x :: l' => x :: filter (fun y => y <> x) (uniq l')
  end.

Definition flatten (m : Table.t (list string)) : list string :=
  uniq (concat m.*2).

(** Modelled from the spec: [Agent::GetEnabledCategories].  "Returns the
    union described above as a comma-joined, order-stable (insertion
    order across ids) list; empty if no categories are enabled
    anywhere." *)
Definition GetEnabledCategories (a : Agent) : string :=
  String.concat "," (flatten (categories_ a)).


(** Modelled from the spec: [Agent::Flush].  "Forwards to every
    registered writer's flush operation with the same blocking flag." *)
Definition Flush (blocking : bool) (a : Agent) : list WriterCall :=
  map (fun iw => WriterFlush iw.1 iw.2 blocking) (writers_ a).

(** Calls on an agent, and a run of them from a given state.  [run]
    returns the final state with the ids that the [AddClient] calls
    were given, oldest first. *)
Inductive Op : Type :=
| OpAddClient (categories : list string) (writer : ptr)
    (mode : UseDefaultCategoryMode)
| OpDisconnect (client : Z)
| OpEnable (id : Z) (categories : list string)
| OpDisable (id : Z) (categories : list string).

Definition step (op : Op) (a : Agent) : option (list Z * Agent) :=
  match op with
  | OpAddClient categories writer mode =>
      match AddClient categories writer mode a with
      | Some (id, a') => Some ([id], a')
      | None => None
      end
  | OpDisconnect client => Some ([], Disconnect client a)
  | OpEnable id categories => Some ([], Enable id categories a)
  | OpDisable id categories => Some ([], Disable id categories a)
  end.

Fixpoint run (ops : list Op) (a : Agent) : option (list Z * Agent) :=
  match ops with
  | [] => Some ([], a)
  | op :: ops' =>
      match step op a with
      | Some (ids, a') =>
          match run ops' a' with
          | Some (ids', a'') => Some (ids ++ ids', a'')
          | None => None
          end
      | None => None
      end
  end.

End Agent.

(** ** The store, and the calls that reach an agent

    Handles point to their agent and are themselves passed by reference
    ([operator=] takes [AgentWriterHandle&&]), so agents, handles and
    category sets live in a store, by address.  The private methods
    [Agent::Disconnect], [Agent::Enable] and [Agent::Disable] are reached
    through handles only; every such call is recorded, oldest first. *)
Inductive AgentCall : Type :=
| CallDisconnect (agent : ptr) (client : Z)
| CallEnable (agent : ptr) (id : Z) (categories : list string)
| CallDisable (agent : ptr) (id : Z) (categories : list string).

Record World : Type := {
  agents : gmap ptr Agent;
  handles : gmap ptr AgentWriterHandle;
  category_sets : gmap ptr NodeCategorySet;
  calls : list AgentCall
}.

(** A method is a function of the store that may have no defined result:
    [None] stands for the use of an object that is not there. *)
Definition M (X : Type) : Type := World -> option (X * World).

Definition ret {X : Type} (x : X) : M X := fun w => Some (x, w).

Definition bind {X Y : Type} (m : M X) (k : X -> M Y) : M Y :=
  fun w =>
    match m w with
    | Some (x, w') => k x w'
    | None => None
    end.

Definition undefined {X : Type} : M X := fun _ => None.

Declare Scope method_scope.
Delimit Scope method_scope with method.
Bind Scope method_scope with M.
Notation "x <- m ;; k" := (bind m (fun x => k))
  (at level 100, m at next level, right associativity) : method_scope.
Notation "m ;; k" := (bind m (fun _ => k))
  (at level 100, right associativity) : method_scope.
Local Open Scope method_scope.

(** The bodies of the agent's private methods are not at hand; the handle
    is written against their signatures. *)
Class AgentMethods : Type := {
  Agent_AddClient :
    list string -> ptr -> Agent.UseDefaultCategoryMode -> Agent ->
    option (Z * Agent);
  Agent_Disconnect : Z -> Agent -> Agent;
  Agent_Enable : Z -> list string -> Agent -> Agent;
  Agent_Disable : Z -> list string -> Agent -> Agent
}.

Module Store.

Definition load (this : ptr) : M AgentWriterHandle :=
  fun w =>
    match handles w !! this with
    | Some h => Some (h, w)
    | None => None
    end.

Definition store (this : ptr) (h : AgentWriterHandle) : M unit :=
  fun w =>
    Some (tt, {| agents := agents w;
                 handles := <[this := h]> (handles w);
                 category_sets := category_sets w;
                 calls := calls w |}).

(** Placing a new handle object at [this]. *)
Definition construct (this : ptr) (h : AgentWriterHandle) : M unit :=
  fun w =>
    match handles w !! this with
    | Some _ => None
    | None => store this h w
    end.

(** The end of the object's storage. *)
Definition release (this : ptr) : M unit :=
  fun w =>
    match handles w !! this with
    | Some _ =>
        Some (tt, {| agents := agents w;
                     handles := delete this (handles w);
                     category_sets := category_sets w;
                     calls := calls w |})
    | None => None
    end.

Definition get_agent_ (this : ptr) : M (option ptr) :=
  h <- load this ;; ret (agent_ h).

Definition get_id_ (this : ptr) : M Z :=
  h <- load this ;; ret (id_ h).

Definition set_agent_ (this : ptr) (v : option ptr) : M unit :=
  h <- load this ;; store this {| agent_ := v; id_ := id_ h |}.

Definition set_id_ (this : ptr) (v : Z) : M unit :=
  h <- load this ;; store this {| agent_ := agent_ h; id_ := v |}.

Definition load_agent (agent : ptr) : M Agent :=
  fun w =>
    match agents w !! agent with
    | Some a => Some (a, w)
    | None => None
    end.

(** [agent->f(...)] for a private method [f]: the agent changes as the
    method says and the call is recorded. *)
Definition call (agent : ptr) (c : AgentCall) (f : Agent -> Agent) : M unit :=
  fun w =>
    match agents w !! agent with
    | Some a =>
        Some (tt, {| agents := <[agent := f a]> (agents w);
                     handles := handles w;
                     category_sets := category_sets w;
                     calls := calls w ++ [c] |})
    | None => None
    end.

Definition load_set (this : ptr) : M NodeCategorySet :=
  fun w =>
    match category_sets w !! this with
    | Some s => Some (s, w)
    | None => None
    end.

Definition store_set (this : ptr) (s : NodeCategorySet) : M unit :=
  fun w =>
    Some (tt, {| agents := agents w;
                 handles := handles w;
                 category_sets := <[this := s]> (category_sets w);
                 calls := calls w |}).

End Store.

(** ** [class AgentWriterHandle]: the methods *)
Module AgentWriterHandle.
Section Methods.
Context `{AgentMethods}.

(** [inline AgentWriterHandle() {}] *)
Definition default_constructor (this : ptr) (indeterminate : Z) : M unit :=
  Store.construct this {| agent_ := None; id_ := indeterminate |}.

(** [inline AgentWriterHandle(Agent* agent, int id)
     : agent_(agent), id_(id) {}] *)
Definition constructor (this : ptr) (agent : option ptr) (id : Z) : M unit :=
  Store.construct this {| agent_ := agent; id_ := id |}.

(** [inline bool empty() const { return agent_ == nullptr; }] *)
Definition empty (this : ptr) : M bool :=
  a <- Store.get_agent_ this ;;
  ret (bool_decide (a = None)).

(** [inline Agent* agent() { return agent_; }] *)
Definition agent (this : ptr) : M (option ptr) :=
  Store.get_agent_ this.

(** [void AgentWriterHandle::reset() {
       if (agent_ != nullptr)
         agent_->Disconnect(id_);
       agent_ = nullptr;
     }] *)
Definition reset (this : ptr) : M unit :=
  a <- Store.get_agent_ this ;;
  match a with
  | Some agent =>
      id <- Store.get_id_ this ;;
      Store.call agent (CallDisconnect agent id) (Agent_Disconnect id)
  | None => ret tt
  end ;;
  Store.set_agent_ this None.

(** [AgentWriterHandle& AgentWriterHandle::operator=(
         AgentWriterHandle&& other) {
       reset();
       agent_ = other.agent_;
       id_ = other.id_;
       other.agent_ = nullptr;
       return *this;
     }] *)
Definition operator_assign (this other : ptr) : M ptr :=
  reset this ;;
  a <- Store.get_agent_ other ;;
  Store.set_agent_ this a ;;
  id <- Store.get_id_ other ;;
  Store.set_id_ this id ;;
  Store.set_agent_ other None ;;
  ret this.

(** [AgentWriterHandle::AgentWriterHandle(AgentWriterHandle&& other) {
       *this = std::move(other);
     }]
    The member initialiser gives [agent_] the null pointer before the
    body runs; [id_] has no value yet. *)
Definition move_constructor (this other : ptr) (indeterminate : Z) : M unit :=
  Store.construct this {| agent_ := None; id_ := indeterminate |} ;;
  operator_assign this other ;;
  ret tt.

(** [inline ~AgentWriterHandle() { reset(); }] *)
Definition destructor (this : ptr) : M unit :=
  reset this ;;
  Store.release this.

(** [void AgentWriterHandle::Enable(
         const std::set<std::string>& categories) {
       if (agent_ != nullptr) agent_->Enable(id_, categories);
     }] *)
Definition Enable (this : ptr) (categories : list string) : M unit :=
  a <- Store.get_agent_ this ;;
  match a with
  | Some agent =>
      id <- Store.get_id_ this ;;
      Store.call agent (CallEnable agent id categories)
        (Agent_Enable id categories)
  | None => ret tt
  end.

(** [void AgentWriterHandle::Disable(
         const std::set<std::string>& categories) {
       if (agent_ != nullptr) agent_->Disable(id_, categories);
     }] *)
Definition Disable (this : ptr) (categories : list string) : M unit :=
  a <- Store.get_agent_ this ;;
  match a with
  | Some agent =>
      id <- Store.get_id_ this ;;
      Store.call agent (CallDisable agent id categories)
        (Agent_Disable id categories)
  | None => ret tt
  end.

(** [inline v8::TracingController*
     AgentWriterHandle::GetTracingController() {
       return agent_ != nullptr ? agent_->GetTracingController()
                                : nullptr;
     }] *)
Definition GetTracingController (this : ptr) : M (option ptr) :=
  a <- Store.get_agent_ this ;;
  match a with
  | Some agent =>
      ag <- Store.load_agent agent ;;
      ret (Agent.GetTracingController ag)
  | None => ret None
  end.

(** Modelled from the spec: the handle that [Agent::AddClient] returns,
    "a handle bound to the new id", built in the caller's storage at
    [result]. *)
Definition AddClient (agent : ptr) (categories : list string)
    (writer : ptr) (mode : Agent.UseDefaultCategoryMode)
    (result : ptr) : M Z :=
  ag <- Store.load_agent agent ;;
  match Agent_AddClient categories writer mode ag with
  | Some (id, ag') =>
      (fun w =>
         Some (tt, {| agents := <[agent := ag']> (agents w);
                      handles := handles w;
                      category_sets := category_sets w;
                      calls := calls w |})) ;;
      constructor result (Some agent) id ;;
      ret id
  | None => undefined
  end.

(** Modelled from the spec: [Agent::DefaultHandle], "a handle bound to
    the sentinel default-handle id". *)
Definition DefaultHandle (agent : ptr) (result : ptr) : M unit :=
  Store.load_agent agent ;;
  constructor result (Some agent) Agent.kDefaultHandleId.

End Methods.
End AgentWriterHandle.

(** The agent as the specification describes it. *)
#[export] Instance spec_agent : AgentMethods := {|
  Agent_AddClient := Agent.AddClient;
  Agent_Disconnect := Agent.Disconnect;
  Agent_Enable := Agent.Enable;
  Agent_Disable := Agent.Disable
|}.

(** ** [class NodeCategorySet] of [node_trace_events.cc] *)
Module NodeCategorySet.
Section Methods.
Context `{AgentMethods}.

(** A [std::string] made from a [char*]: the characters before the
    first NUL. *)
Fixpoint c_str (s : string) : string :=
  match s with
  | EmptyString => EmptyString
  | String c s' =>
      if Ascii.eqb c Ascii.zero then EmptyString else String c (c_str s')
  end.

(** [const std::set<std::string>& GetCategories() const
     { return categories_; }] *)
Definition GetCategories (s : NodeCategorySet) : list string :=
  set_categories_ s.

(** [categories.empty()]. *)
Definition set_empty (categories : list string) : bool :=
  match categories with
  | [] => true
  | _ :: _ => false
  end.

(** The loop of [New]: an element is [None] when reading it or turning
    it into a UTF-8 string fails, and [New] then returns at once. *)
Fixpoint New_loop (cats : list (option string)) (categories : list string)
    : option (list string) :=
  match cats with
  | [] => Some categories
  | None :: _ => None
  | Some val :: cats' =>
      New_loop cats' (Std.set_insert (c_str val) categories)
  end.

(** [void NodeCategorySet::New(const FunctionCallbackInfo<Value>& args)]:
    [cats] is the array [args[0]], [this] the object [args.This()].
    [CHECK_NOT_NULL(env->tracing_agent_writer())] ends the process
    when there is no writer handle. *)
Definition New (env : Environment) (this : ptr)
    (cats : list (option string)) : M unit :=
  match New_loop cats [] with
  | None => ret tt
  | Some categories =>
      match tracing_agent_writer env with
      | None => undefined
      | Some _ =>
          Store.store_set this
            {| enabled_ := false; set_categories_ := categories |}
      end
  end.

(** [env->tracing_agent_writer()->f(categories)]. *)
Definition through_writer (env : Environment) (f : ptr -> M unit) : M unit :=
  match tracing_agent_writer env with
  | Some writer => f writer
  | None => undefined
  end.

(** [void NodeCategorySet::Enable(
         const FunctionCallbackInfo<Value>& args) {
       ...
       ASSIGN_OR_RETURN_UNWRAP(&category_set, args.Holder());
       CHECK_NOT_NULL(category_set);
       const auto& categories = category_set->GetCategories();
       if (!category_set->enabled_ && !categories.empty()) {
         env->tracing_agent_writer()->Enable(categories);
         category_set->enabled_ = true;
       }
     }]
    [holder] is [args.Holder()]; the unwrapping returns from the
    function when no category set is wrapped there. *)
Definition Enable (env : Environment) (holder : ptr) : M unit :=
  fun w =>
    match category_sets w !! holder with
    | None => Some (tt, w)
    | Some category_set =>
        let categories := GetCategories category_set in
        if negb (enabled_ category_set) && negb (set_empty categories)
        then
          (through_writer env
             (fun writer => AgentWriterHandle.Enable writer categories) ;;
           s <- Store.load_set holder ;;
           Store.store_set holder
             {| enabled_ := true; set_categories_ := set_categories_ s |}) w
        else Some (tt, w)
    end.

(** [void NodeCategorySet::Disable(
         const FunctionCallbackInfo<Value>& args) {
       ...
       if (category_set->enabled_ && !categories.empty()) {
         env->tracing_agent_writer()->Disable(categories);
         category_set->enabled_ = false;
       }
     }] *)
Definition Disable (env : Environment) (holder : ptr) : M unit :=
  fun w =>
    match category_sets w !! holder with
    | None => Some (tt, w)
    | Some category_set =>
        let categories := GetCategories category_set in
        if enabled_ category_set && negb (set_empty categories)
        then
          (through_writer env
             (fun writer => AgentWriterHandle.Disable writer categories) ;;
           s <- Store.load_set holder ;;
           Store.store_set holder
             {| enabled_ := false; set_categories_ := set_categories_ s |}) w
        else Some (tt, w)
    end.

(** Calls of [enable] and [disable] on one set, one after the other. *)
Inductive SetOp : Type := SetEnable | SetDisable.

Definition set_step (env : Environment) (holder : ptr) (op : SetOp) : M unit :=
  match op with
  | SetEnable => Enable env holder
  | SetDisable => Disable env holder
  end.

Fixpoint set_run (env : Environment) (holder : ptr) (ops : list SetOp)
    : M unit :=
  match ops with
  | [] => ret tt
  | op :: ops' => set_step env holder op ;; set_run env holder ops'
  end.

End Methods.
End NodeCategorySet.

(** ** The vocabulary of the statements *)

(** What [reset] asks of the agent for a handle: nothing when it is empty. *)
Definition disconnect_of (h : AgentWriterHandle) : list AgentCall :=
  match agent_ h with
  | Some agent => [CallDisconnect agent (id_ h)]
  | None => []
  end.

Definition is_empty (this : ptr) (w : World) : Prop :=
  exists h, handles w !! this = Some h /\ agent_ h = None.

(** *** The agent *)

(** The id [id] holds the category [c]: its multiset is in the table and
    counts [c] at least once. *)
Definition holds (a : Agent) (id : Z) (c : string) : Prop :=
  exists ms, Table.find id (categories_ a) = Some ms /\ (0 < Std.count c ms)%nat.

(** [Enable] and [Disable] calls, as opposed to registrations. *)
Definition category_call (op : Agent.Op) : bool :=
  match op with
  | Agent.OpEnable _ _ | Agent.OpDisable _ _ => true
  | _ => false
  end.

Fixpoint add_client_calls (ops : list Agent.Op) : nat :=
  match ops with
  | [] => 0
  | Agent.OpAddClient _ _ _ :: ops' => S (add_client_calls ops')
  | _ :: ops' => add_client_calls ops'
  end.

(** The fields of a comma-separated string, and the categories that such
    a string lists: none for the empty string.  A category can be told
    from the string when it is not empty and has no comma in it. *)
Fixpoint fields (s : string) : list string :=
  match s with
  | EmptyString => [EmptyString]
  | String c s' =>
      if Ascii.eqb c ","%char then EmptyString :: fields s'
      else match fields s' with
           | f :: fs => String c f :: fs
           | [] => [String c EmptyString]
           end
  end.

Definition listed (s : string) : list string :=
  if decide (s = EmptyString) then [] else fields s.

Fixpoint has_comma (s : string) : bool :=
  match s with
  | EmptyString => false
  | String c s' => Ascii.eqb c ","%char || has_comma s'
  end.

Definition plain (c : string) : Prop :=
  c <> EmptyString /\ has_comma c = false.

(** The count of [c] that a call leaves with [id], told from the call
    alone: an [Enable] for [id] adds the occurrences of [c] in its
    argument, one for a set that has [c], and a [Disable] for [id] takes as
    many away, as far as there are any.  Calls for another id leave the
    count as it is; registrations are not counted here. *)
Definition count_after (op : Agent.Op) (id : Z) (c : string) (n : nat) : nat :=
  match op with
  | Agent.OpEnable id' categories =>
      if decide (id' = id) then n + Std.count c categories else n
  | Agent.OpDisable id' categories =>
      if decide (id' = id) then n - Std.count c categories else n
  | _ => n
  end.

(** The count of [c] that the calls [ops], made in this order, leave with
    [id], starting from the count [n]. *)
Fixpoint held_count (id : Z) (c : string) (n : nat) (ops : list Agent.Op)
    : nat :=
  match ops with
  | [] => n
  | op :: ops' => held_count id c (count_after op id c n) ops'
  end.

(** The invariant read on the returned string: after the calls [ops] on a
    new agent, the categories that the string lists between its commas
    are those that some id holds. *)
Definition string_lists_held (ops : list Agent.Op) : Prop :=
  exists a,
    Agent.run ops (Agent.init None) = Some ([], a) /\
    forall c, c ∈ listed (Agent.GetEnabledCategories a) <->
              exists id, holds a id c.



(** What stays true of an agent whatever is called on it. *)
Definition agent_wf (a : Agent) : Prop :=
  NoDup (Table.keys (categories_ a)) /\
  StronglySorted Z.lt (Table.keys (writers_ a)) /\
  Forall (fun k => 1 <= k < next_writer_id_ a) (Table.keys (writers_ a)) /\
  1 <= next_writer_id_ a <= INT_MAX.

(** *** The handles *)

(** Two handles bound to one registration: the same agent, the same id. *)
Definition same_registration (h1 h2 : AgentWriterHandle) : Prop :=
  exists agent,
    agent_ h1 = Some agent /\ agent_ h2 = Some agent /\ id_ h1 = id_ h2.

Section Vocabulary.
Context `{AgentMethods}.

(** The store once [reset] has run on a handle that held [h]. *)
Definition after_reset (w : World) (this : ptr) (h : AgentWriterHandle) : World :=
  {| agents :=
       match agent_ h with
       | Some agent =>
           match agents w !! agent with
           | Some a => <[agent := Agent_Disconnect (id_ h) a]> (agents w)
           | None => agents w
           end
       | None => agents w
       end;
     handles := <[this := {| agent_ := None; id_ := id_ h |}]> (handles w);
     category_sets := category_sets w;
     calls := calls w ++ disconnect_of h |}.

(** The agent that a handle points to, if any, is there. *)
Definition agent_alive (w : World) (h : AgentWriterHandle) : Prop :=
  forall agent, agent_ h = Some agent -> is_Some (agents w !! agent).

(** A handle on which [Enable], [Disable] and [GetTracingController] do
    nothing: no call, the same store, a null controller. *)
Definition inert (this : ptr) (w : World) : Prop :=
  forall categories : list string,
    AgentWriterHandle.Enable this categories w = Some (tt, w) /\
    AgentWriterHandle.Disable this categories w = Some (tt, w) /\
    AgentWriterHandle.GetTracingController this w = Some (None, w).

(** A move from [other] into [this], read as a transfer that spares the
    registration of [other]: afterwards [this] holds the pair that [other]
    held, [other] is empty, and the agent of [other] has not been asked to
    disconnect its id. *)
Definition move_transfers (w : World) (this other : ptr) : Prop :=
  forall (hs : AgentWriterHandle) (r : ptr) (w' : World),
    handles w !! other = Some hs ->
    AgentWriterHandle.operator_assign this other w = Some (r, w') ->
    handles w' !! this = Some {| agent_ := agent_ hs; id_ := id_ hs |} /\
    is_empty other w' /\
    exists l, calls w' = calls w ++ l /\
      forall agent, agent_ hs = Some agent ->
        CallDisconnect agent (id_ hs) ∉ l.

(** A move-assignment into a bound [this]: the registration of [this] is
    disconnected first, [this] being empty in between, and then [this]
    holds the pair of [other] and [other] is empty. *)
Definition move_assign_replaces (w : World) (this other : ptr) : Prop :=
  forall (agent : ptr) (id : Z) (a : Agent) (hs : AgentWriterHandle),
    handles w !! this = Some {| agent_ := Some agent; id_ := id |} ->
    agents w !! agent = Some a ->
    handles w !! other = Some hs ->
    exists w1 w',
      AgentWriterHandle.reset this w = Some (tt, w1) /\
      calls w1 = calls w ++ [CallDisconnect agent id] /\
      agents w1 = <[agent := Agent_Disconnect id a]> (agents w) /\
      is_empty this w1 /\
      AgentWriterHandle.operator_assign this other w = Some (this, w') /\
      calls w' = calls w1 /\
      agents w' = agents w1 /\
      handles w' !! this = Some {| agent_ := agent_ hs; id_ := id_ hs |} /\
      is_empty other w'.

End Vocabulary.

(** *** The category sets of the binding *)

(** The agent calls that a handle holding [h] makes when [Enable] or
    [Disable] is called on it with [categories]. *)
Definition enable_of (h : AgentWriterHandle) (categories : list string)
    : list AgentCall :=
  match agent_ h with
  | Some agent => [CallEnable agent (id_ h) categories]
  | None => []
  end.

Definition disable_of (h : AgentWriterHandle) (categories : list string)
    : list AgentCall :=
  match agent_ h with
  | Some agent => [CallDisable agent (id_ h) categories]
  | None => []
  end.

(** [Enable] calls less [Disable] calls, among the calls [l]. *)
Fixpoint outstanding (l : list AgentCall) : Z :=
  match l with
  | [] => 0
  | CallEnable _ _ _ :: l' => outstanding l' + 1
  | CallDisable _ _ _ :: l' => outstanding l' - 1
  | CallDisconnect _ _ :: l' => outstanding l'
  end.

(** The guards of [NodeCategorySet::Enable] and [NodeCategorySet::Disable]. *)
Definition enable_guard (s : NodeCategorySet) : bool :=
  negb (enabled_ s) && negb (NodeCategorySet.set_empty (set_categories_ s)).

Definition disable_guard (s : NodeCategorySet) : bool :=
  enabled_ s && negb (NodeCategorySet.set_empty (set_categories_ s)).

Definition op_guard (op : NodeCategorySet.SetOp) (s : NodeCategorySet) : bool :=
  match op with
  | NodeCategorySet.SetEnable => enable_guard s
  | NodeCategorySet.SetDisable => disable_guard s
  end.

Definition op_calls (op : NodeCategorySet.SetOp) (h : AgentWriterHandle)
    (categories : list string) : list AgentCall :=
  match op with
  | NodeCategorySet.SetEnable => enable_of h categories
  | NodeCategorySet.SetDisable => disable_of h categories
  end.

(** The state of the set after a call that passes the guard. *)
Definition op_sets (op : NodeCategorySet.SetOp) (s : NodeCategorySet)
    : NodeCategorySet :=
  {| enabled_ :=
       match op with
       | NodeCategorySet.SetEnable => true
       | NodeCategorySet.SetDisable => false
       end;
     set_categories_ := set_categories_ s |}.

(** The order of [std::string]. *)
Definition string_lt (a b : string) : Prop := String.compare a b = Lt.

(** The multiset that an agent keeps for an id: empty when there is no
    entry. *)
Definition multiset_of (a : Agent) (id : Z) : list string :=
  default [] (Table.find id (categories_ a)).

(** The environment's writer handle is at [writer] and holds [h], whose
    agent, if any, is there; the category set at [holder] is [s]. *)
Definition binding_setup (env : Environment) (writer holder : ptr)
    (h : AgentWriterHandle) (s : NodeCategorySet) (w : World) : Prop :=
  tracing_agent_writer env = Some writer /\
  handles w !! writer = Some h /\
  agent_alive w h /\
  category_sets w !! holder = Some s.

Section BindingVocabulary.
Context `{AgentMethods}.

Definition op_method (op : NodeCategorySet.SetOp)
    : Z -> list string -> Agent -> Agent :=
  match op with
  | NodeCategorySet.SetEnable => Agent_Enable
  | NodeCategorySet.SetDisable => Agent_Disable
  end.

(** The store after a call of [op] on the set [s] at [holder], through a
    writer handle that holds [h]. *)
Definition after_set_op (op : NodeCategorySet.SetOp) (holder : ptr)
    (h : AgentWriterHandle) (s : NodeCategorySet) (w : World) : World :=
  if op_guard op s then
    {| agents :=
         match agent_ h with
         | Some agent =>
             match agents w !! agent with
             | Some a =>
                 <[agent := op_method op (id_ h) (set_categories_ s) a]>
                   (agents w)
             | None => agents w
             end
         | None => agents w
         end;
       handles := handles w;
       category_sets := <[holder := op_sets op s]> (category_sets w);
       calls := calls w ++ op_calls op h (set_categories_ s) |}
  else w.

(** The same call made twice in a row on the set at [holder], read as
    giving one agent call whatever the set is. *)
Definition twice_forwards_once (env : Environment) (holder : ptr)
    (op : NodeCategorySet.SetOp) (w : World) : Prop :=
  forall w',
    NodeCategorySet.set_run env holder [op; op] w = Some (tt, w') ->
    exists c, calls w' = calls w ++ [c].

End BindingVocabulary.

(** A store to try the statements on: the agent at address 1 has served
    two [AddClient] calls; the handles at 5 and 6 hold the two
    registrations, the handle at 7 is empty, nothing lives at 8. *)
Definition example_agent : Agent :=
  {| next_writer_id_ := 3;
     categories_ := [(1, ["net"]); (2, ["gc"])];
     writers_ := [(1, 11%positive); (2, 12%positive)];
     tracing_controller_ := Some 20%positive |}.

Definition example_world : World :=
  {| agents := {[ 1%positive := example_agent ]};
     handles :=
       {[ 5%positive := {| agent_ := Some 1%positive; id_ := 1 |};
          6%positive := {| agent_ := Some 1%positive; id_ := 2 |};
          7%positive := {| agent_ := None; id_ := 0 |} ]};
     category_sets := ∅;
     calls := [] |}.

(** A store in which [DefaultHandle] has been called twice on the agent at
    address 1: the handles at 5 and 6 both hold the id -1. *)
Definition default_handles_world : World :=
  {| agents := {[ 1%positive := Agent.init (Some 20%positive) ]};
     handles :=
       {[ 5%positive := {| agent_ := Some 1%positive;
                           id_ := Agent.kDefaultHandleId |};
          6%positive := {| agent_ := Some 1%positive;
                           id_ := Agent.kDefaultHandleId |} ]};
     category_sets := ∅;
     calls := [] |}.

(** The first store with two category sets, of the environment whose
    writer handle is the one at 5: a new set of two categories at 30 and a new
    set without categories at 31. *)
Definition example_env : Environment :=
  {| tracing_agent_writer := Some 5%positive |}.

Definition example_binding : World :=
  {| agents := agents example_world;
     handles := handles example_world;
     category_sets :=
       {[ 30%positive := {| enabled_ := false;
                            set_categories_ := ["node.perf"; "v8"] |};
          31%positive := {| enabled_ := false; set_categories_ := [] |} ]};
     calls := [] |}.

(** ** Sequences of calls, and what is said about them *)

(** A string with a NUL character in it. *)
Fixpoint has_nul (s : string) : bool :=
  match s with
  | EmptyString => false
  | String c s' => Ascii.eqb c Ascii.zero || has_nul s'
  end.

(** Calls that take turns: an [Enable], then a [Disable], then an [Enable]
    again, starting with an [Enable] when [expect_enable] is set, and no
    [Disconnect] among them. *)
Fixpoint alternating (expect_enable : bool) (l : list AgentCall) : bool :=
  match l with
  | [] => true
  | CallEnable _ _ _ :: l' => expect_enable && alternating false l'
  | CallDisable _ _ _ :: l' => negb expect_enable && alternating true l'
  | CallDisconnect _ _ :: _ => false
  end.

(** The number of category sets of the store that are enabled and have a
    category. *)
Definition enabled_sets (w : World) : nat :=
  size (filter (fun ks : ptr * NodeCategorySet => disable_guard ks.2 = true)
          (category_sets w)).

(** What the destructor of the handle at [this] asks of the agent, read
    from the store: nothing when the handle is empty or not there. *)
Definition disconnect_at (w : World) (this : ptr) : list AgentCall :=
  match handles w !! this with
  | Some h => disconnect_of h
  | None => []
  end.

(** The handle [h] holds the id [id] of the agent at [agent]. *)
Definition bound_to (agent : ptr) (id : Z) (h : AgentWriterHandle) : bool :=
  bool_decide (agent_ h = Some agent) && bool_decide (id_ h = id).

(** The number of handles of the store that hold the id [id] of the agent
    at [agent]. *)
Definition holders (w : World) (agent : ptr) (id : Z) : nat :=
  size (filter (fun kh : ptr * AgentWriterHandle =>
                  bound_to agent id kh.2 = true) (handles w)).

(** The number of [Disconnect(id)] calls to the agent at [agent], among the
    calls [l]. *)
Fixpoint disconnects (agent : ptr) (id : Z) (l : list AgentCall) : nat :=
  match l with
  | [] => 0
  | CallDisconnect a i :: l' =>
      (if bool_decide (a = agent) && bool_decide (i = id) then 1 else 0)
      + disconnects agent id l'
  | _ :: l' => disconnects agent id l'
  end.

(** Every handle of the store points to an agent of the store, or to
    none. *)
Definition all_alive (w : World) : Prop :=
  forall this h, handles w !! this = Some h -> agent_alive w h.

(** The step from [w] to [w'] keeps the books on registrations: for every
    id of every agent, the handles that hold it after the step and the
    [Disconnect] calls made for it in the step add up to the handles that
    held it before.  No category set changes, and no agent comes or
    goes. *)
Definition conserves (w w' : World) : Prop :=
  (exists l,
     calls w' = calls w ++ l /\
     forall agent id,
       (holders w' agent id + disconnects agent id l)%nat =
         holders w agent id) /\
  category_sets w' = category_sets w /\
  (forall agent, is_Some (agents w' !! agent) <-> is_Some (agents w !! agent)).

(** The public operations of a handle. *)
Inductive HandleOp : Type :=
| DefaultConstruct (this : ptr) (indeterminate : Z)
| MoveConstruct (this other : ptr) (indeterminate : Z)
| MoveAssign (this other : ptr)
| HandleReset (this : ptr)
| HandleDestroy (this : ptr)
| HandleEnable (this : ptr) (categories : list string)
| HandleDisable (this : ptr) (categories : list string).

(** An operation fits the addresses [live] at which handles are when it
    uses handles that are there and constructs one where none is. *)
Definition op_fits (live : gset ptr) (op : HandleOp) : bool :=
  match op with
  | DefaultConstruct this _ => bool_decide (this ∉ live)
  | MoveConstruct this other _ =>
      bool_decide (this ∉ live) && bool_decide (other ∈ live)
  | MoveAssign this other =>
      bool_decide (this ∈ live) && bool_decide (other ∈ live)
  | HandleReset this | HandleDestroy this | HandleEnable this _ | HandleDisable this _ =>
      bool_decide (this ∈ live)
  end.

Definition live_after (live : gset ptr) (op : HandleOp) : gset ptr :=
  match op with
  | DefaultConstruct this _ | MoveConstruct this _ _ => {[this]} ∪ live
  | HandleDestroy this => live ∖ {[this]}
  | _ => live
  end.

(** A call of [Enable] or [Disable] on the handle at [request_handle],
    with its argument. *)
Record Request : Type := {
  request_handle : ptr;
  request_op : NodeCategorySet.SetOp;
  request_categories : list string
}.

Definition request_call (r : Request) : HandleOp :=
  match request_op r with
  | NodeCategorySet.SetEnable =>
      HandleEnable (request_handle r) (request_categories r)
  | NodeCategorySet.SetDisable =>
      HandleDisable (request_handle r) (request_categories r)
  end.

(** What the handle of the request asks of its agent, read from the
    store: the same call with the id of the handle, or nothing when the
    handle is empty. *)
Definition forwarded (w : World) (r : Request) : list AgentCall :=
  match handles w !! request_handle r with
  | Some h => op_calls (request_op r) h (request_categories r)
  | None => []
  end.

Fixpoint ops_fit (live : gset ptr) (ops : list HandleOp) : bool :=
  match ops with
  | [] => true
  | op :: ops' => op_fits live op && ops_fit (live_after live op) ops'
  end.

Section Sequences.
Context `{AgentMethods}.

Definition handle_step (op : HandleOp) : M unit :=
  match op with
  | DefaultConstruct this indeterminate =>
      AgentWriterHandle.default_constructor this indeterminate
  | MoveConstruct this other indeterminate =>
      AgentWriterHandle.move_constructor this other indeterminate
  | MoveAssign this other =>
      AgentWriterHandle.operator_assign this other ;; ret tt
  | HandleReset this => AgentWriterHandle.reset this
  | HandleDestroy this => AgentWriterHandle.destructor this
  | HandleEnable this categories => AgentWriterHandle.Enable this categories
  | HandleDisable this categories => AgentWriterHandle.Disable this categories
  end.

(** Operations on the handles of a store, one after the other. *)
Fixpoint handle_run (ops : list HandleOp) : M unit :=
  match ops with
  | [] => ret tt
  | op :: ops' => handle_step op ;; handle_run ops'
  end.

(** A registration handed on from [source] through new handles, each
    move-constructed from the one before; the result is the last owner. *)
Fixpoint move_chain (source : ptr) (destinations : list ptr)
    (indeterminate : Z) : M ptr :=
  match destinations with
  | [] => ret source
  | d :: ds =>
      AgentWriterHandle.move_constructor d source indeterminate ;;
      move_chain d ds indeterminate
  end.

(** The handles of [l] destroyed one after the other. *)
Fixpoint destroy_all (l : list ptr) : M unit :=
  match l with
  | [] => ret tt
  | this :: l' => AgentWriterHandle.destructor this ;; destroy_all l'
  end.

(** The exchange of two handles by three moves through a temporary, as
    [std::swap] does it:
    [AgentWriterHandle tmp(std::move(a)); a = std::move(b);
     b = std::move(tmp);] and the end of [tmp]. *)
Definition exchange (a b tmp : ptr) (indeterminate : Z) : M unit :=
  AgentWriterHandle.move_constructor tmp a indeterminate ;;
  AgentWriterHandle.operator_assign a b ;;
  AgentWriterHandle.operator_assign b tmp ;;
  AgentWriterHandle.destructor tmp.

(** Calls of [enable] and [disable] on the category sets of one
    environment, in any order. *)
Fixpoint binding_run (env : Environment)
    (ops : list (ptr * NodeCategorySet.SetOp)) : M unit :=
  match ops with
  | [] => ret tt
  | (holder, op) :: ops' =>
      NodeCategorySet.set_step env holder op ;; binding_run env ops'
  end.

End Sequences.

(** * Properties *)

(** ** Running methods on the store *)

Lemma World_eq (w w' : World) :
  agents w = agents w' -> handles w = handles w' ->
  category_sets w = category_sets w' -> calls w = calls w' -> w = w'.
Proof. destruct w, w'; simpl; intros; congruence. Qed.

Lemma bind_Some {X Y : Type} (m : M X) (k : X -> M Y) (w w' : World) (x : X) :
  m w = Some (x, w') -> bind m k w = k x w'.
Proof. unfold bind; intros ->; reflexivity. Qed.

(** [step_with H] runs the first method of a sequence, [H] giving its
    result. *)
Tactic Notation "step_with" uconstr(H) :=
  rewrite (bind_Some _ _ _ _ _ H).

Lemma bind_None {X Y : Type} (m : M X) (k : X -> M Y) (w : World) :
  m w = None -> bind m k w = None.
Proof. unfold bind; intros ->; reflexivity. Qed.

Lemma bind_inv {X Y : Type} (m : M X) (k : X -> M Y) (w w' : World) (y : Y) :
  bind m k w = Some (y, w') ->
  exists x w1, m w = Some (x, w1) /\ k x w1 = Some (y, w').
Proof.
  unfold bind. destruct (m w) as [[x w1]|]; [eauto | discriminate].
Qed.

Lemma get_agent_eq (this : ptr) (w : World) (h : AgentWriterHandle) :
  handles w !! this = Some h -> Store.get_agent_ this w = Some (agent_ h, w).
Proof.
  intros Hh. unfold Store.get_agent_, Store.load, bind, ret. rewrite Hh.
  reflexivity.
Qed.

Lemma get_id_eq (this : ptr) (w : World) (h : AgentWriterHandle) :
  handles w !! this = Some h -> Store.get_id_ this w = Some (id_ h, w).
Proof.
  intros Hh. unfold Store.get_id_, Store.load, bind, ret. rewrite Hh.
  reflexivity.
Qed.

Lemma set_agent_eq (this : ptr) (v : option ptr) (w : World)
    (h : AgentWriterHandle) :
  handles w !! this = Some h ->
  Store.set_agent_ this v w =
    Some (tt, {| agents := agents w;
                 handles := <[this := {| agent_ := v; id_ := id_ h |}]> (handles w);
                 category_sets := category_sets w;
                 calls := calls w |}).
Proof.
  intros Hh. unfold Store.set_agent_, Store.load, Store.store, bind.
  rewrite Hh. reflexivity.
Qed.

Lemma set_id_eq (this : ptr) (v : Z) (w : World) (h : AgentWriterHandle) :
  handles w !! this = Some h ->
  Store.set_id_ this v w =
    Some (tt, {| agents := agents w;
                 handles := <[this := {| agent_ := agent_ h; id_ := v |}]> (handles w);
                 category_sets := category_sets w;
                 calls := calls w |}).
Proof.
  intros Hh. unfold Store.set_id_, Store.load, Store.store, bind.
  rewrite Hh. reflexivity.
Qed.

Lemma set_agent_same (this : ptr) (v : option ptr) (w : World)
    (h : AgentWriterHandle) :
  handles w !! this = Some h -> agent_ h = v ->
  Store.set_agent_ this v w = Some (tt, w).
Proof.
  intros Hh <-. rewrite (set_agent_eq _ _ _ _ Hh). do 2 f_equal.
  apply World_eq; simpl; try done. apply insert_id. by destruct h.
Qed.

Lemma set_id_same (this : ptr) (v : Z) (w : World) (h : AgentWriterHandle) :
  handles w !! this = Some h -> id_ h = v ->
  Store.set_id_ this v w = Some (tt, w).
Proof.
  intros Hh <-. rewrite (set_id_eq _ _ _ _ Hh). do 2 f_equal.
  apply World_eq; simpl; try done. apply insert_id. by destruct h.
Qed.

Lemma get_agent_inv (this : ptr) (w w' : World) (v : option ptr) :
  Store.get_agent_ this w = Some (v, w') ->
  w' = w /\ exists h, handles w !! this = Some h /\ agent_ h = v.
Proof.
  unfold Store.get_agent_, Store.load, bind, ret.
  destruct (handles w !! this) as [h|] eqn:Hh; [|discriminate].
  intros [= <- <-]. eauto.
Qed.

Lemma set_agent_None_empty (this : ptr) (w w' : World) :
  Store.set_agent_ this None w = Some (tt, w') -> is_empty this w'.
Proof.
  unfold Store.set_agent_, Store.load, Store.store, bind.
  destruct (handles w !! this) as [h|] eqn:Hh; [|discriminate].
  intros [= <-]. eexists; split; [apply lookup_insert_eq | reflexivity].
Qed.

Section HandleFacts.
Context `{AgentMethods}.

(** *** [reset] and the destructor *)

Lemma reset_bound (w : World) (this agent : ptr) (id : Z) (a : Agent) :
  handles w !! this = Some {| agent_ := Some agent; id_ := id |} ->
  agents w !! agent = Some a ->
  AgentWriterHandle.reset this w =
    Some (tt, {| agents := <[agent := Agent_Disconnect id a]> (agents w);
                 handles := <[this := {| agent_ := None; id_ := id |}]> (handles w);
                 category_sets := category_sets w;
                 calls := calls w ++ [CallDisconnect agent id] |}).
Proof.
  intros Hh Ha. unfold AgentWriterHandle.reset.
  step_with (get_agent_eq _ _ _ Hh). simpl.
  erewrite bind_Some; cycle 1.
  { step_with (get_id_eq _ _ _ Hh). simpl.
    unfold Store.call. rewrite Ha. reflexivity. }
  erewrite set_agent_eq by exact Hh. reflexivity.
Qed.

Lemma reset_empty (w : World) (this : ptr) (h : AgentWriterHandle) :
  handles w !! this = Some h -> agent_ h = None ->
  AgentWriterHandle.reset this w = Some (tt, w).
Proof.
  intros Hh He. unfold AgentWriterHandle.reset.
  step_with (get_agent_eq _ _ _ Hh). rewrite He.
  rewrite (bind_Some _ _ w w tt) by reflexivity.
  erewrite set_agent_eq by exact Hh.
  do 2 f_equal. apply World_eq; simpl; try reflexivity.
  apply insert_id. rewrite Hh. destruct h; simpl in *; congruence.
Qed.

Lemma reset_leaves_empty (w w' : World) (this : ptr) :
  AgentWriterHandle.reset this w = Some (tt, w') -> is_empty this w'.
Proof.
  unfold AgentWriterHandle.reset. intros Hr.
  apply bind_inv in Hr as (v & w1 & _ & Hr).
  apply bind_inv in Hr as (u & w2 & _ & Hr).
  eapply set_agent_None_empty; eassumption.
Qed.

Lemma destructor_bound (w : World) (this agent : ptr) (id : Z) (a : Agent) :
  handles w !! this = Some {| agent_ := Some agent; id_ := id |} ->
  agents w !! agent = Some a ->
  AgentWriterHandle.destructor this w =
    Some (tt, {| agents := <[agent := Agent_Disconnect id a]> (agents w);
                 handles := delete this (handles w);
                 category_sets := category_sets w;
                 calls := calls w ++ [CallDisconnect agent id] |}).
Proof.
  intros Hh Ha. unfold AgentWriterHandle.destructor.
  step_with (reset_bound _ _ _ _ _ Hh Ha).
  unfold Store.release; simpl. rewrite lookup_insert_eq.
  by rewrite delete_insert_eq.
Qed.

Lemma destructor_empty (w : World) (this : ptr) (h : AgentWriterHandle) :
  handles w !! this = Some h -> agent_ h = None ->
  AgentWriterHandle.destructor this w =
    Some (tt, {| agents := agents w;
                 handles := delete this (handles w);
                 category_sets := category_sets w;
                 calls := calls w |}).
Proof.
  intros Hh He. unfold AgentWriterHandle.destructor.
  step_with (reset_empty _ _ _ Hh He).
  unfold Store.release. by rewrite Hh.
Qed.

(** *** The methods of an empty handle *)

Lemma empty_inert (w : World) (this : ptr) : is_empty this w -> inert this w.
Proof.
  intros (h & Hh & He) categories.
  unfold AgentWriterHandle.Enable, AgentWriterHandle.Disable,
    AgentWriterHandle.GetTracingController.
  rewrite !(bind_Some _ _ _ _ _ (get_agent_eq _ _ _ Hh)), He. done.
Qed.

Lemma reset_eq (w : World) (this : ptr) (h : AgentWriterHandle) :
  handles w !! this = Some h -> agent_alive w h ->
  AgentWriterHandle.reset this w = Some (tt, after_reset w this h).
Proof.
  intros Hh Hlive. destruct h as [[agent|] id].
  - destruct (Hlive agent eq_refl) as [a Ha].
    rewrite (reset_bound _ _ _ _ _ Hh Ha).
    unfold after_reset, disconnect_of; simpl. by rewrite Ha.
  - rewrite (reset_empty _ _ _ Hh eq_refl). do 2 f_equal.
    apply World_eq; unfold after_reset, disconnect_of; simpl.
    + done.
    + by rewrite insert_id.
    + done.
    + by rewrite app_nil_r.
Qed.

(** *** Move-assignment *)

Lemma operator_assign_distinct (w : World) (this other : ptr)
    (hd hs : AgentWriterHandle) :
  this <> other ->
  handles w !! this = Some hd -> handles w !! other = Some hs ->
  agent_alive w hd ->
  AgentWriterHandle.operator_assign this other w =
    Some (this,
          {| agents := agents (after_reset w this hd);
             handles :=
               <[other := {| agent_ := None; id_ := id_ hs |}]>
                 (<[this := {| agent_ := agent_ hs; id_ := id_ hs |}]>
                    (handles w));
             category_sets := category_sets w;
             calls := calls w ++ disconnect_of hd |}).
Proof.
  intros Hne Hd Hs Hlive. unfold AgentWriterHandle.operator_assign.
  step_with (reset_eq _ _ _ Hd Hlive).
  set (w1 := after_reset w this hd).
  assert (Hs1 : handles w1 !! other = Some hs)
    by (subst w1; simpl; by rewrite lookup_insert_ne).
  assert (Hd1 : handles w1 !! this = Some {| agent_ := None; id_ := id_ hd |})
    by (subst w1; simpl; by rewrite lookup_insert_eq).
  step_with (get_agent_eq _ _ _ Hs1).
  step_with (set_agent_eq _ (agent_ hs) _ _ Hd1).
  match goal with |- bind _ _ ?w = _ => set (w2 := w) end.
  assert (Hs2 : handles w2 !! other = Some hs)
    by (subst w2; simpl; by rewrite lookup_insert_ne).
  step_with (get_id_eq _ _ _ Hs2).
  assert (Hd2 : handles w2 !! this
                = Some {| agent_ := agent_ hs; id_ := id_ hd |})
    by (subst w2; simpl; by rewrite lookup_insert_eq).
  step_with (set_id_eq _ (id_ hs) _ _ Hd2).
  match goal with |- bind _ _ ?w = _ => set (w3 := w) end.
  assert (Hs3 : handles w3 !! other = Some hs)
    by (subst w3; simpl; by rewrite lookup_insert_ne).
  step_with (set_agent_eq _ None _ _ Hs3).
  unfold ret. do 2 f_equal. subst w3 w2 w1; simpl.
  apply World_eq; simpl; try done.
  by rewrite !insert_insert_eq.
Qed.

(** Assigning a handle to itself: [reset] has emptied it by the time its
    own fields are read back. *)
Lemma operator_assign_self (w : World) (this : ptr) (h : AgentWriterHandle) :
  handles w !! this = Some h -> agent_alive w h ->
  AgentWriterHandle.operator_assign this this w =
    Some (this, after_reset w this h).
Proof.
  intros Hh Hlive. unfold AgentWriterHandle.operator_assign.
  step_with (reset_eq _ _ _ Hh Hlive).
  set (w1 := after_reset w this h).
  assert (H1 : handles w1 !! this = Some {| agent_ := None; id_ := id_ h |})
    by (subst w1; simpl; by rewrite lookup_insert_eq).
  step_with (get_agent_eq _ _ _ H1).
  step_with (set_agent_same _ None _ _ H1 eq_refl).
  step_with (get_id_eq _ _ _ H1).
  step_with (set_id_same _ (id_ h) _ _ H1 eq_refl).
  by step_with (set_agent_same _ None _ _ H1 eq_refl).
Qed.

Lemma operator_assign_empties_source (w w' : World) (this other r : ptr) :
  AgentWriterHandle.operator_assign this other w = Some (r, w') ->
  is_empty other w'.
Proof.
  unfold AgentWriterHandle.operator_assign. intros Hr.
  do 5 (apply bind_inv in Hr as (? & ? & _ & Hr)).
  apply bind_inv in Hr as (u & w6 & Hset & Hret).
  unfold ret in Hret. injection Hret as <- <-.
  destruct u. eapply set_agent_None_empty; eassumption.
Qed.

(** *** Construction *)

Lemma construct_eq (w : World) (this : ptr) (h : AgentWriterHandle) :
  handles w !! this = None ->
  Store.construct this h w =
    Some (tt, {| agents := agents w;
                 handles := <[this := h]> (handles w);
                 category_sets := category_sets w;
                 calls := calls w |}).
Proof. intros Hn. unfold Store.construct, Store.store. by rewrite Hn. Qed.

Lemma construct_inv (w w' : World) (this : ptr) (h : AgentWriterHandle) :
  Store.construct this h w = Some (tt, w') ->
  handles w' !! this = Some h.
Proof.
  unfold Store.construct, Store.store.
  destruct (handles w !! this); [discriminate|].
  intros [= <-]. apply lookup_insert_eq.
Qed.

Lemma AddClient_eq (w : World) (agent result writer : ptr) (a a' : Agent)
    (categories : list string) (mode : Agent.UseDefaultCategoryMode) (id : Z) :
  agents w !! agent = Some a ->
  handles w !! result = None ->
  Agent_AddClient categories writer mode a = Some (id, a') ->
  AgentWriterHandle.AddClient agent categories writer mode result w =
    Some (id, {| agents := <[agent := a']> (agents w);
                 handles :=
                   <[result := {| agent_ := Some agent; id_ := id |}]>
                     (handles w);
                 category_sets := category_sets w;
                 calls := calls w |}).
Proof.
  intros Ha Hn Hadd. unfold AgentWriterHandle.AddClient.
  erewrite bind_Some; cycle 1.
  { unfold Store.load_agent. rewrite Ha. reflexivity. }
  rewrite Hadd. erewrite bind_Some by reflexivity.
  unfold AgentWriterHandle.constructor.
  erewrite bind_Some; cycle 1.
  { apply construct_eq. exact Hn. }
  reflexivity.
Qed.

Lemma move_constructor_eq (w : World) (this other : ptr)
    (hs : AgentWriterHandle) (indeterminate : Z) :
  handles w !! this = None ->
  handles w !! other = Some hs ->
  AgentWriterHandle.move_constructor this other indeterminate w =
    Some (tt,
          {| agents := agents w;
             handles :=
               <[other := {| agent_ := None; id_ := id_ hs |}]>
                 (<[this := {| agent_ := agent_ hs; id_ := id_ hs |}]>
                    (handles w));
             category_sets := category_sets w;
             calls := calls w |}).
Proof.
  intros Hfresh Hs.
  assert (Hne : this <> other) by congruence.
  unfold AgentWriterHandle.move_constructor.
  step_with (construct_eq _ _ _ Hfresh).
  set (w1 := {| agents := agents w |}).
  assert (H1 : handles w1 !! this
               = Some {| agent_ := None; id_ := indeterminate |})
    by (subst w1; simpl; apply lookup_insert_eq).
  assert (Hs1 : handles w1 !! other = Some hs)
    by (subst w1; simpl; by rewrite lookup_insert_ne).
  assert (Hlive : agent_alive w1 {| agent_ := None; id_ := indeterminate |})
    by (intros p; discriminate).
  step_with (operator_assign_distinct _ _ _ _ _ Hne H1 Hs1 Hlive).
  unfold ret. do 2 f_equal. subst w1.
  apply World_eq; simpl; try done.
  - by rewrite insert_insert_eq.
  - by rewrite app_nil_r.
Qed.

(** C3.  A handle bound to a registration asks its agent to disconnect
    its id exactly once when it is reset or destroyed, and is empty
    afterwards.  Resetting or destroying the emptied handle asks
    nothing more.  A handle that [AddClient] has just returned and that
    is destroyed at once therefore produces one [Disconnect] call, with
    the id that [AddClient] assigned. *)
Theorem handle_disconnects_exactly_once (w : World) (agent : ptr) (a : Agent) :
  agents w !! agent = Some a ->
  (forall (this : ptr) (id : Z),
     handles w !! this = Some {| agent_ := Some agent; id_ := id |} ->
     (exists w1,
        AgentWriterHandle.reset this w = Some (tt, w1) /\
        calls w1 = calls w ++ [CallDisconnect agent id] /\
        agents w1 = <[agent := Agent_Disconnect id a]> (agents w) /\
        is_empty this w1 /\
        AgentWriterHandle.empty this w1 = Some (true, w1) /\
        AgentWriterHandle.reset this w1 = Some (tt, w1) /\
        exists w2,
          AgentWriterHandle.destructor this w1 = Some (tt, w2) /\
          calls w2 = calls w1 /\ agents w2 = agents w1 /\
          handles w2 !! this = None) /\
     (exists w3,
        AgentWriterHandle.destructor this w = Some (tt, w3) /\
        calls w3 = calls w ++ [CallDisconnect agent id] /\
        agents w3 = <[agent := Agent_Disconnect id a]> (agents w) /\
        handles w3 !! this = None)) /\
  (forall (result writer : ptr) (categories : list string)
          (mode : Agent.UseDefaultCategoryMode) (id : Z) (a' : Agent),
     handles w !! result = None ->
     Agent_AddClient categories writer mode a = Some (id, a') ->
     exists w1 w2,
       AgentWriterHandle.AddClient agent categories writer mode result w
         = Some (id, w1) /\
       handles w1 !! result = Some {| agent_ := Some agent; id_ := id |} /\
       calls w1 = calls w /\
       AgentWriterHandle.destructor result w1 = Some (tt, w2) /\
       calls w2 = calls w ++ [CallDisconnect agent id] /\
       handles w2 !! result = None).
Proof.
  intros Ha. split.
  - intros this id Hh. split.
    + eexists. split; [apply (reset_bound _ _ _ _ _ Hh Ha)|].
      set (w1 := {| agents := _ |}).
      assert (H1 : handles w1 !! this = Some {| agent_ := None; id_ := id |})
        by (subst w1; simpl; apply lookup_insert_eq).
      repeat split; try done.
      * by exists {| agent_ := None; id_ := id |}.
      * unfold AgentWriterHandle.empty.
        by step_with (get_agent_eq _ _ _ H1).
      * by apply (reset_empty _ _ _ H1).
      * eexists. split; [by apply (destructor_empty _ _ _ H1)|].
        simpl. repeat split; try done. apply lookup_delete_eq.
    + eexists. split; [apply (destructor_bound _ _ _ _ _ Hh Ha)|].
      simpl. repeat split; try done. apply lookup_delete_eq.
  - intros result writer categories mode id a' Hn Hadd.
    do 2 eexists. split; [apply (AddClient_eq _ _ _ _ _ _ _ _ _ Ha Hn Hadd)|].
    set (w1 := {| agents := _ |}).
    assert (H1 : handles w1 !! result
                 = Some {| agent_ := Some agent; id_ := id |})
      by (subst w1; simpl; apply lookup_insert_eq).
    assert (Ha1 : agents w1 !! agent = Some a')
      by (subst w1; simpl; apply lookup_insert_eq).
    split; [exact H1|]. split; [done|].
    split; [apply (destructor_bound _ _ _ _ _ H1 Ha1)|].
    split; [done|]. simpl. apply lookup_delete_eq.
Qed.

(** C5.  On an empty handle [Enable] and [Disable] make no call and leave
    the whole store as it is, and [GetTracingController] returns the null
    pointer.  A default-constructed handle is empty, and so is a handle
    after [reset] and a handle that has been moved from, by assignment
    (to another handle or to itself) or by construction: each of these
    steps has a result, and the handle is empty in it. *)
Theorem empty_handle_is_inert (w : World) (this : ptr) :
  (is_empty this w -> inert this w) /\
  (forall indeterminate : Z,
     handles w !! this = None ->
     exists w',
       AgentWriterHandle.default_constructor this indeterminate w
         = Some (tt, w') /\
       is_empty this w' /\ inert this w') /\
  (forall h : AgentWriterHandle,
     handles w !! this = Some h -> agent_alive w h ->
     exists w',
       AgentWriterHandle.reset this w = Some (tt, w') /\
       is_empty this w' /\ inert this w') /\
  (forall (destination : ptr) (hd h : AgentWriterHandle),
     handles w !! destination = Some hd -> agent_alive w hd ->
     handles w !! this = Some h ->
     exists w',
       AgentWriterHandle.operator_assign destination this w
         = Some (destination, w') /\
       is_empty this w' /\ inert this w') /\
  (forall (destination : ptr) (indeterminate : Z) (h : AgentWriterHandle),
     handles w !! destination = None ->
     handles w !! this = Some h ->
     exists w',
       AgentWriterHandle.move_constructor destination this indeterminate w
         = Some (tt, w') /\
       is_empty this w' /\ inert this w').
Proof.
  assert (Hin : forall w0 p, is_empty p w0 -> is_empty p w0 /\ inert p w0)
    by (intros w0 p He; split; [done | by apply empty_inert]).
  split; [apply empty_inert|]. split; [|split; [|split]].
  - intros junk Hfresh. eexists.
    split; [apply (construct_eq _ _ _ Hfresh)|].
    apply Hin. eexists. split; [apply lookup_insert_eq | done].
  - intros h Hh Hlive. eexists. split; [apply (reset_eq _ _ _ Hh Hlive)|].
    apply Hin. eexists. split; [apply lookup_insert_eq | done].
  - intros dst hd h Hd Hlive Hh. destruct (decide (dst = this)) as [->|Hne].
    + eexists. split; [apply (operator_assign_self _ _ _ Hd Hlive)|].
      apply Hin. eexists. split; [apply lookup_insert_eq | done].
    + eexists.
      split; [apply (operator_assign_distinct _ _ _ _ _ Hne Hd Hh Hlive)|].
      apply Hin. eexists. split; [apply lookup_insert_eq | done].
  - intros dst junk h Hfresh Hh. eexists.
    split; [apply (move_constructor_eq _ _ _ _ _ Hfresh Hh)|].
    apply Hin. eexists. split; [apply lookup_insert_eq | done].
Qed.

(** C4, as the code has it.  Between two different handles, a move by
    assignment or by construction gives the destination the pair of the
    source and leaves the source empty.  The one call that a
    move-assignment makes is the [Disconnect] for what the destination
    held before, and none when it was empty, as it is in a
    move-construction; so, unless the destination was bound to the very
    registration of the source, the move does not disconnect that
    registration.  Afterwards resetting or destroying the destination
    disconnects it, once, and resetting or destroying the source asks
    nothing. *)
Theorem move_between_distinct_handles (w : World) (other : ptr)
    (hs : AgentWriterHandle) :
  handles w !! other = Some hs ->
  (forall (this : ptr) (hd : AgentWriterHandle),
     this <> other ->
     handles w !! this = Some hd ->
     agent_alive w hd ->
     (~ same_registration hd hs -> move_transfers w this other) /\
     exists w',
       AgentWriterHandle.operator_assign this other w = Some (this, w') /\
       handles w' !! this = Some {| agent_ := agent_ hs; id_ := id_ hs |} /\
       handles w' !! other = Some {| agent_ := None; id_ := id_ hs |} /\
       calls w' = calls w ++ disconnect_of hd /\
       AgentWriterHandle.reset other w' = Some (tt, w') /\
       (exists w'', AgentWriterHandle.destructor other w' = Some (tt, w'') /\
                    calls w'' = calls w' /\ agents w'' = agents w') /\
       forall agent a',
         agent_ hs = Some agent -> agents w' !! agent = Some a' ->
         (exists w'', AgentWriterHandle.reset this w' = Some (tt, w'') /\
                      calls w'' = calls w' ++ [CallDisconnect agent (id_ hs)]) /\
         (exists w'', AgentWriterHandle.destructor this w' = Some (tt, w'') /\
                      calls w'' = calls w' ++ [CallDisconnect agent (id_ hs)])) /\
  (forall (this : ptr) (indeterminate : Z),
     handles w !! this = None ->
     exists w',
       AgentWriterHandle.move_constructor this other indeterminate w
         = Some (tt, w') /\
       handles w' !! this = Some {| agent_ := agent_ hs; id_ := id_ hs |} /\
       handles w' !! other = Some {| agent_ := None; id_ := id_ hs |} /\
       calls w' = calls w /\ agents w' = agents w).
Proof.
  intros Hs. split.
  - intros this hd Hne Hd Hlive.
    pose proof (operator_assign_distinct _ _ _ _ _ Hne Hd Hs Hlive) as Hmove.
    set (w' := {| agents := agents (after_reset w this hd) |}) in Hmove.
    assert (Hthis : handles w' !! this
                    = Some {| agent_ := agent_ hs; id_ := id_ hs |}).
    { subst w'; simpl. rewrite lookup_insert_ne by done.
      apply lookup_insert_eq. }
    assert (Hother : handles w' !! other
                     = Some {| agent_ := None; id_ := id_ hs |})
      by (subst w'; simpl; apply lookup_insert_eq).
    split.
    + intros Hdiff hs0 r w0 Hs0 Hmove0.
      rewrite Hs in Hs0. injection Hs0 as <-.
      rewrite Hmove in Hmove0. injection Hmove0 as <- <-.
      split; [exact Hthis|]. split; [by eexists|].
      exists (disconnect_of hd). split; [done|].
      intros agent Hag Hin. apply Hdiff. exists agent.
      unfold disconnect_of in Hin. destruct (agent_ hd) as [p|] eqn:Hp.
      * apply list_elem_of_singleton in Hin. injection Hin as -> ->. done.
      * by apply elem_of_nil in Hin.
    + exists w'. split; [exact Hmove|]. split; [exact Hthis|].
      split; [exact Hother|]. split; [done|].
      split; [by apply (reset_empty _ _ _ Hother)|].
      split.
      { eexists. split; [by apply (destructor_empty _ _ _ Hother)|]. done. }
      intros agent a' Hag Ha'. rewrite Hag in Hthis. split.
      * eexists. split; [apply (reset_bound _ _ _ _ _ Hthis Ha')|]. done.
      * eexists. split; [apply (destructor_bound _ _ _ _ _ Hthis Ha')|]. done.
  - intros this junk Hfresh. eexists.
    split; [apply (move_constructor_eq _ _ _ _ _ Hfresh Hs)|]. simpl.
    split; [rewrite lookup_insert_ne by congruence; apply lookup_insert_eq|].
    split; [apply lookup_insert_eq | done].
Qed.

(** C9, as the code has it.  Move-assigning into a bound handle from
    another handle first disconnects the registration that the
    destination held, with the destination's old id and before any field
    of the source is read; then the destination holds the pair of the
    source and the source is empty. *)
Theorem move_assign_into_bound_handle (w : World) (this other : ptr) :
  this <> other -> move_assign_replaces w this other.
Proof.
  intros Hne agent id a hs Hd Ha Hs.
  assert (Hlive : agent_alive w {| agent_ := Some agent; id_ := id |}).
  { intros p [= <-]. by eexists. }
  do 2 eexists. split; [apply (reset_bound _ _ _ _ _ Hd Ha)|].
  split; [done|]. split; [done|]. split.
  { eexists. simpl. split; [apply lookup_insert_eq | done]. }
  split; [apply (operator_assign_distinct _ _ _ _ _ Hne Hd Hs Hlive)|].
  simpl. split; [done|]. split; [by rewrite Ha|].
  split; [rewrite lookup_insert_ne by done; apply lookup_insert_eq|].
  eexists. split; [apply lookup_insert_eq | done].
Qed.

End HandleFacts.

(** The two statements above need their two handles to differ.  When a
    bound handle is assigned to itself, [reset] runs first and the fields
    read back afterwards are those of the emptied handle: the registration
    is disconnected and the handle ends up empty. *)
Lemma self_assign_example :
  AgentWriterHandle.operator_assign 5 5 example_world =
    Some (5%positive,
          {| agents := {[ 1%positive := Agent.Disconnect 1 example_agent ]};
             handles :=
               {[ 5%positive := {| agent_ := None; id_ := 1 |};
                  6%positive := {| agent_ := Some 1%positive; id_ := 2 |};
                  7%positive := {| agent_ := None; id_ := 0 |} ]};
             category_sets := ∅;
             calls := [CallDisconnect 1 1] |}).
Proof. vm_compute. reflexivity. Qed.

(** Two calls of [DefaultHandle] on one agent give two handles with the
    same agent and the same id; both come from the calls themselves. *)
Lemma default_handles_example :
  (AgentWriterHandle.DefaultHandle 1 5 ;;
   AgentWriterHandle.DefaultHandle 1 6)%method
    {| agents := {[ 1%positive := Agent.init (Some 20%positive) ]};
       handles := ∅; category_sets := ∅; calls := [] |}
  = Some (tt, default_handles_world).
Proof. vm_compute. reflexivity. Qed.

Lemma default_handles_assign_example :
  AgentWriterHandle.operator_assign 5 6 default_handles_world =
    Some (5%positive,
          {| agents :=
               {[ 1%positive :=
                    Agent.Disconnect Agent.kDefaultHandleId
                      (Agent.init (Some 20%positive)) ]};
             handles :=
               {[ 5%positive := {| agent_ := Some 1%positive;
                                   id_ := Agent.kDefaultHandleId |};
                  6%positive := {| agent_ := None;
                                   id_ := Agent.kDefaultHandleId |} ]};
             category_sets := ∅;
             calls := [CallDisconnect 1 Agent.kDefaultHandleId] |}).
Proof. vm_compute. reflexivity. Qed.

(** C4, as stated, fails in two ways.  For a self-assignment the handle
    at 5 does not hold its pair afterwards, and its own registration was
    disconnected by the move.  For two default handles of one agent the
    move of the one at 6 into the one at 5 calls [Disconnect] with the id
    that the source holds. *)
Lemma move_transfers_fails_on_shared_registration :
  ~ move_transfers example_world 5 5 /\
  ~ move_transfers default_handles_world 5 6.
Proof.
  split; intros Hc.
  - destruct (Hc _ _ _ eq_refl self_assign_example) as [Hthis _].
    vm_compute in Hthis. discriminate.
  - destruct (Hc _ _ _ eq_refl default_handles_assign_example)
      as (_ & _ & l & Hcalls & Hnot).
    simpl in Hcalls. subst l.
    apply (Hnot 1%positive eq_refl). apply list_elem_of_here.
Qed.

(** C9, as stated, fails for a self-assignment: after it the handle
    would have to hold its old pair and be empty at once. *)
Lemma move_assign_replaces_fails_on_self_assignment :
  ~ move_assign_replaces example_world 5 5.
Proof.
  intros Hc.
  destruct (Hc 1%positive 1 example_agent _ eq_refl eq_refl eq_refl)
    as (w1 & w' & _ & _ & _ & _ & Hmove & _ & _ & Hthis & _).
  rewrite self_assign_example in Hmove. injection Hmove as <-.
  vm_compute in Hthis. discriminate.
Qed.

(** The statements, tried on the example store. *)
Lemma handle_disconnects_exactly_once_witness :
  (exists w1,
     AgentWriterHandle.reset 5 example_world = Some (tt, w1) /\
     calls w1 = [CallDisconnect 1 1] /\
     is_empty 5 w1 /\
     AgentWriterHandle.reset 5 w1 = Some (tt, w1)) /\
  (exists w1 w2,
     AgentWriterHandle.AddClient 1 ["perf"] 13 Agent.kIgnoreDefaultCategories
       8 example_world = Some (3, w1) /\
     AgentWriterHandle.destructor 8 w1 = Some (tt, w2) /\
     calls w2 = [CallDisconnect 1 3]).
Proof.
  destruct (handle_disconnects_exactly_once example_world 1 example_agent
              eq_refl) as [Hhandle Hregister].
  split.
  - destruct (Hhandle 5%positive 1 eq_refl)
      as [(w1 & Hreset & Hcalls & _ & Hempty & _ & Hagain & _) _].
    exists w1. repeat split; assumption.
  - destruct (Hregister 8%positive 13%positive ["perf"]
                Agent.kIgnoreDefaultCategories 3 _ eq_refl eq_refl)
      as (w1 & w2 & Hadd & _ & _ & Hdestroy & Hcalls & _).
    exists w1, w2. repeat split; assumption.
Defined.

Lemma empty_handle_is_inert_witness :
  inert 7 example_world /\
  (exists w', AgentWriterHandle.default_constructor 8 0 example_world
                = Some (tt, w') /\ inert 8 w') /\
  (exists w', AgentWriterHandle.reset 5 example_world = Some (tt, w') /\
              inert 5 w') /\
  (exists w', AgentWriterHandle.operator_assign 6 5 example_world
                = Some (6%positive, w') /\ inert 5 w') /\
  (exists w', AgentWriterHandle.move_constructor 8 5 0 example_world
                = Some (tt, w') /\ inert 5 w').
Proof.
  assert (Hlive : forall id,
            agent_alive example_world
              {| agent_ := Some 1%positive; id_ := id |}).
  { intros id agent [= <-]. by eexists. }
  split; [|split; [|split; [|split]]].
  - apply (proj1 (empty_handle_is_inert example_world 7)).
    eexists. split; [reflexivity | done].
  - destruct (proj1 (proj2 (empty_handle_is_inert example_world 8))
                0 eq_refl) as (w' & Hrun & _ & Hinert).
    by exists w'.
  - destruct (proj1 (proj2 (proj2 (empty_handle_is_inert example_world 5)))
                _ eq_refl (Hlive 1)) as (w' & Hrun & _ & Hinert).
    by exists w'.
  - destruct (proj1 (proj2 (proj2 (proj2
                (empty_handle_is_inert example_world 5))))
                6%positive _ _ eq_refl (Hlive 2) eq_refl)
      as (w' & Hrun & _ & Hinert).
    by exists w'.
  - destruct (proj2 (proj2 (proj2 (proj2
                (empty_handle_is_inert example_world 5))))
                8%positive 0 _ eq_refl eq_refl)
      as (w' & Hrun & _ & Hinert).
    by exists w'.
Defined.

Lemma move_between_distinct_handles_witness :
  move_transfers example_world 5 6 /\
  (exists w',
     AgentWriterHandle.operator_assign 5 6 example_world = Some (5%positive, w') /\
     handles w' !! 5%positive = Some {| agent_ := Some 1%positive; id_ := 2 |} /\
     handles w' !! 6%positive = Some {| agent_ := None; id_ := 2 |} /\
     calls w' = [CallDisconnect 1 1]) /\
  (exists w',
     AgentWriterHandle.move_constructor 8 6 0 example_world = Some (tt, w') /\
     handles w' !! 8%positive = Some {| agent_ := Some 1%positive; id_ := 2 |} /\
     handles w' !! 6%positive = Some {| agent_ := None; id_ := 2 |} /\
     calls w' = []).
Proof.
  destruct (move_between_distinct_handles example_world 6
              {| agent_ := Some 1%positive; id_ := 2 |} eq_refl)
    as [Hassign Hconstruct].
  destruct (Hassign 5%positive {| agent_ := Some 1%positive; id_ := 1 |})
    as [Htransfer (w' & Hmove & Hthis & Hother & Hcalls & _)].
  { discriminate. }
  { reflexivity. }
  { intros agent [= <-]. by eexists. }
  split; [|split].
  - apply Htransfer. intros (agent & _ & _ & Hid). discriminate.
  - exists w'. repeat split; assumption.
  - destruct (Hconstruct 8%positive 0 eq_refl)
      as (w'' & Hmove' & Hthis' & Hother' & Hcalls' & _).
    exists w''. repeat split; assumption.
Defined.

Lemma move_assign_into_bound_handle_witness :
  exists w1 w',
    AgentWriterHandle.reset 5 example_world = Some (tt, w1) /\
    calls w1 = [CallDisconnect 1 1] /\
    is_empty 5 w1 /\
    AgentWriterHandle.operator_assign 5 6 example_world = Some (5%positive, w') /\
    calls w' = calls w1 /\
    handles w' !! 5%positive = Some {| agent_ := Some 1%positive; id_ := 2 |} /\
    is_empty 6 w'.
Proof.
  destruct (move_assign_into_bound_handle example_world 5 6 ltac:(discriminate)
              1%positive 1 example_agent
              {| agent_ := Some 1%positive; id_ := 2 |}
              eq_refl eq_refl eq_refl)
    as (w1 & w' & Hreset & Hcalls & _ & Hempty & Hmove & Hcalls' & _
        & Hthis & Hother).
  exists w1, w'. repeat split; assumption.
Defined.

(** ** Tables *)
Section TableFacts.
Context {V : Type}.
Implicit Types (m : Table.t V) (id k : Z) (v : V).

Lemma keys_update (dflt : V) (f : V -> V) id m :
  Table.keys (Table.update dflt f id m) =
    Table.keys m ++ (if decide (id ∈ Table.keys m) then [] else [id]).
Proof.
  unfold Table.keys. induction m as [|[k v] m IH].
  - cbn [Table.update fmap list_fmap app].
    by rewrite decide_False by apply not_elem_of_nil.
  - cbn [Table.update]. destruct (decide (k = id)) as [->|Hne].
    + rewrite !fmap_cons. cbn [fst].
      rewrite decide_True by apply list_elem_of_here. by rewrite app_nil_r.
    + rewrite !fmap_cons, IH. cbn [fst]. rewrite <- app_comm_cons.
      f_equal. f_equal.
      destruct (decide (id ∈ m.*1)) as [Hin|Hout].
      * rewrite decide_True; [done|]. by apply list_elem_of_further.
      * rewrite decide_False; [done|].
        intros [->|Hin]%elem_of_cons; done.
Qed.

Lemma find_update_eq (dflt : V) (f : V -> V) id m :
  Table.find id (Table.update dflt f id m) =
    Some (f (default dflt (Table.find id m))).
Proof.
  induction m as [|[k v] m IH]; simpl;
    repeat (case_decide; simplify_eq; simpl); done.
Qed.

Lemma find_update_ne (dflt : V) (f : V -> V) id k m :
  id <> k -> Table.find k (Table.update dflt f id m) = Table.find k m.
Proof.
  intros Hne. induction m as [|[k' v] m IH]; simpl;
    repeat (case_decide; simplify_eq; simpl); done.
Qed.

Lemma keys_erase id m :
  Table.keys (Table.erase id m) = filter (fun k => k <> id) (Table.keys m).
Proof.
  unfold Table.keys. induction m as [|[k v] m IH]; [done|].
  rewrite fmap_cons. cbn [fst Table.erase]. case_decide.
  - rewrite filter_cons_False by (intros ?; done). apply IH.
  - rewrite filter_cons_True by done. rewrite fmap_cons. cbn [fst].
    f_equal. apply IH.
Qed.

Lemma find_None id m : Table.find id m = None <-> id ∉ Table.keys m.
Proof.
  unfold Table.keys. induction m as [|[k v] m IH]; simpl.
  - split; [intros _; apply not_elem_of_nil | done].
  - rewrite not_elem_of_cons. case_decide; simplify_eq.
    + split; [discriminate | intros [? _]; done].
    + rewrite IH. split; [by intros ?; split | by intros [_ ?]].
Qed.

Lemma find_Some_elem id v m : Table.find id m = Some v -> (id, v) ∈ m.
Proof.
  induction m as [|[k v'] m IH]; simpl; [discriminate|].
  case_decide; simplify_eq.
  - intros [= ->]. apply list_elem_of_here.
  - intros Hf. apply list_elem_of_further. by apply IH.
Qed.

Lemma elem_find_Some id v m :
  NoDup (Table.keys m) -> (id, v) ∈ m -> Table.find id m = Some v.
Proof.
  unfold Table.keys. induction m as [|[k v'] m IH]; simpl.
  - intros _ []%elem_of_nil.
  - rewrite NoDup_cons. intros [Hk Hnd] [[= -> ->]|Hin]%elem_of_cons.
    + by case_decide.
    + case_decide; [|by apply IH]. simplify_eq.
      exfalso. apply Hk. apply list_elem_of_fmap. by exists (id, v).
Qed.

Lemma find_erase id k m :
  Table.find k (Table.erase id m) =
    if decide (k = id) then None else Table.find k m.
Proof.
  induction m as [|[k' v] m IH]; simpl.
  - by case_decide.
  - destruct (decide (k' = id)) as [->|Hne]; simpl; rewrite IH;
      repeat (case_decide; simplify_eq; simpl); done.
Qed.

Lemma NoDup_keys_update (dflt : V) (f : V -> V) id m :
  NoDup (Table.keys m) -> NoDup (Table.keys (Table.update dflt f id m)).
Proof.
  intros Hnd. rewrite keys_update. destruct (decide (id ∈ Table.keys m)).
  - by rewrite app_nil_r.
  - apply NoDup_app. split; [done|]. split; [|apply NoDup_singleton].
    intros k Hk ->%list_elem_of_singleton. done.
Qed.

Lemma NoDup_keys_erase id m :
  NoDup (Table.keys m) -> NoDup (Table.keys (Table.erase id m)).
Proof. intros Hnd. rewrite keys_erase. by apply NoDup_filter. Qed.

End TableFacts.

(** ** Sets and multisets of strings *)

Lemma elem_of_multiset_insert (x c : string) (m : list string) :
  c ∈ Std.multiset_insert x m <-> c = x \/ c ∈ m.
Proof.
  induction m as [|y m IH]; simpl.
  - rewrite list_elem_of_singleton, elem_of_nil. tauto.
  - destruct (String.ltb x y); rewrite !elem_of_cons; [tauto|].
    rewrite IH. tauto.
Qed.

Lemma elem_of_multiset_insert_range (l m : list string) (c : string) :
  c ∈ Std.multiset_insert_range l m <-> c ∈ l \/ c ∈ m.
Proof.
  unfold Std.multiset_insert_range. revert m.
  induction l as [|x l IH]; intros m; simpl.
  - rewrite elem_of_nil. tauto.
  - rewrite IH, elem_of_multiset_insert, elem_of_cons. tauto.
Qed.

Lemma count_pos (c : string) (m : list string) :
  (0 < Std.count c m)%nat <-> c ∈ m.
Proof.
  unfold Std.count. split.
  - intros Hlen. destruct (filter (fun y => y = c) m) as [|y l] eqn:Hf.
    + simpl in Hlen. lia.
    + assert (Hy : y ∈ filter (fun y => y = c) m)
        by (rewrite Hf; apply list_elem_of_here).
      apply list_elem_of_filter in Hy as [-> Hin]. done.
  - intros Hin.
    assert (Hc : c ∈ filter (fun y => y = c) m)
      by (by apply list_elem_of_filter).
    destruct (filter (fun y => y = c) m); [by apply elem_of_nil in Hc|].
    simpl. lia.
Qed.

(** ** The enabled categories *)

Lemma elem_of_uniq (c : string) (l : list string) :
  c ∈ Agent.uniq l <-> c ∈ l.
Proof.
  induction l as [|x l IH]; simpl; [done|].
  rewrite !elem_of_cons, list_elem_of_filter, IH.
  destruct (decide (c = x)); tauto.
Qed.

Lemma NoDup_uniq (l : list string) : NoDup (Agent.uniq l).
Proof.
  induction l as [|x l IH]; simpl; [apply NoDup_nil_2|].
  apply NoDup_cons. split; [|by apply NoDup_filter].
  rewrite list_elem_of_filter. intros [Hne _]. done.
Qed.

Lemma uniq_app (l1 l2 : list string) :
  Agent.uniq (l1 ++ l2) =
    Agent.uniq l1 ++ filter (fun c => c ∉ l1) (Agent.uniq l2).
Proof.
  induction l1 as [|x l1 IH]; simpl.
  - symmetry. induction (Agent.uniq l2) as [|y l IHl]; [done|].
    rewrite filter_cons_True by apply not_elem_of_nil. by f_equal.
  - f_equal. rewrite IH, filter_app. f_equal.
    rewrite list_filter_filter. apply list_filter_iff.
    intros c. rewrite not_elem_of_cons. tauto.
Qed.

Lemma flatten_cons (id : Z) (ms : list string) (m : Table.t (list string)) :
  Agent.flatten ((id, ms) :: m) =
    Agent.uniq ms ++ filter (fun c => c ∉ ms) (Agent.flatten m).
Proof. unfold Agent.flatten. rewrite fmap_cons. simpl. apply uniq_app. Qed.

Lemma elem_of_flatten (c : string) (m : Table.t (list string)) :
  c ∈ Agent.flatten m <-> exists id ms, (id, ms) ∈ m /\ c ∈ ms.
Proof.
  induction m as [|[id ms] m IH].
  - unfold Agent.flatten; simpl. split; [by intros ?%elem_of_nil|].
    by intros (? & ? & ?%elem_of_nil & _).
  - rewrite flatten_cons, elem_of_app, list_elem_of_filter, elem_of_uniq, IH.
    split.
    + intros [Hin|[_ (id' & ms' & Hin & Hc)]].
      * exists id, ms. split; [apply list_elem_of_here | done].
      * exists id', ms'. split; [by apply list_elem_of_further | done].
    + intros (id' & ms' & [[= -> ->]|Hin]%elem_of_cons & Hc); [by left|].
      destruct (decide (c ∈ ms)); [by left|]. right. split; [done|].
      by exists id', ms'.
Qed.

Lemma NoDup_flatten (m : Table.t (list string)) : NoDup (Agent.flatten m).
Proof. apply NoDup_uniq. Qed.

Lemma flatten_nil_iff (m : Table.t (list string)) :
  Agent.flatten m = [] <-> forall id ms, (id, ms) ∈ m -> ms = [].
Proof.
  split.
  - intros Hnil id ms Hin. destruct ms as [|c ms]; [done|].
    assert (Hc : c ∈ Agent.flatten m).
    { apply elem_of_flatten. exists id, (c :: ms).
      split; [done | apply list_elem_of_here]. }
    rewrite Hnil in Hc. by apply elem_of_nil in Hc.
  - intros Hall. apply elem_of_nil_inv. intros c Hc.
    apply elem_of_flatten in Hc as (id & ms & Hin & Hc).
    rewrite (Hall _ _ Hin) in Hc. by apply elem_of_nil in Hc.
Qed.

Lemma StronglySorted_filter {X : Type} (R : relation X) (P : X -> Prop)
    `{forall x, Decision (P x)} (l : list X) :
  StronglySorted R l -> StronglySorted R (filter P l).
Proof.
  induction 1 as [|x l Hs IH Hall]; [constructor|].
  rewrite filter_cons. destruct (decide (P x)); [|done].
  constructor; [done|]. rewrite Forall_forall in Hall |- *.
  intros y [_ Hy]%list_elem_of_filter. by apply Hall.
Qed.






(** ** What every reachable agent satisfies *)

Lemma init_wf (tracing_controller : option ptr) :
  agent_wf (Agent.init tracing_controller).
Proof.
  unfold agent_wf, Agent.init, INT_MAX; simpl.
  split; [apply NoDup_nil_2|]. split; [constructor|].
  split; [constructor | lia].
Qed.

Lemma keys_assign_fresh {V : Type} (id : Z) (v : V) (m : Table.t V) :
  id ∉ Table.keys m -> Table.assign id v m = m ++ [(id, v)].
Proof.
  unfold Table.assign, Table.keys. induction m as [|[k v'] m IH]; [done|].
  rewrite fmap_cons, not_elem_of_cons. intros [Hne Hout]. simpl.
  rewrite decide_False by done. by rewrite IH.
Qed.

Lemma writers_fresh (a : Agent) :
  agent_wf a -> next_writer_id_ a ∉ Table.keys (writers_ a).
Proof.
  intros (_ & _ & Hall & _) Hin. rewrite Forall_forall in Hall.
  specialize (Hall _ Hin). lia.
Qed.

Lemma AddClient_inv (categories : list string) (writer : ptr)
    (mode : Agent.UseDefaultCategoryMode) (a a' : Agent) (id : Z) :
  Agent.AddClient categories writer mode a = Some (id, a') ->
  id = next_writer_id_ a /\ id < INT_MAX /\
  next_writer_id_ a' = id + 1 /\
  writers_ a' = Table.assign id writer (writers_ a) /\
  exists ms, categories_ a' = Table.assign id ms (categories_ a).
Proof.
  unfold Agent.AddClient. case_decide; [|discriminate].
  intros [= <- <-]. simpl. eauto 10.
Qed.

Lemma step_wf (op : Agent.Op) (a a' : Agent) (ids : list Z) :
  agent_wf a -> Agent.step op a = Some (ids, a') -> agent_wf a'.
Proof.
  intros Hwf Hstep. pose proof (writers_fresh _ Hwf) as Hfresh.
  destruct Hwf as (Hnd & Hsort & Hall & Hnext).
  destruct op as [categories writer mode|client|id categories|id categories];
    simpl in Hstep.
  - destruct (Agent.AddClient categories writer mode a) as [[id a1]|] eqn:Hadd;
      [|discriminate].
    injection Hstep as <- <-.
    apply AddClient_inv in Hadd as (-> & Hlt & Hn & Hw & ms & Hc).
    unfold agent_wf. rewrite Hn, Hw, Hc.
    rewrite (keys_assign_fresh _ _ _ Hfresh).
    unfold Table.keys at 2 3. rewrite fmap_app. simpl.
    split; [by apply NoDup_keys_update|]. split; [|split; [|lia]].
    + apply StronglySorted_app_2; [|done|repeat constructor].
      intros k1 k2 Hk1 ->%list_elem_of_singleton.
      rewrite Forall_forall in Hall. specialize (Hall _ Hk1). lia.
    + apply Forall_app. split.
      * eapply Forall_impl; [exact Hall|]. simpl. lia.
      * repeat constructor; lia.
  - injection Hstep as <- <-. unfold agent_wf; simpl.
    rewrite !keys_erase.
    split; [by apply NoDup_filter|]. split; [by apply StronglySorted_filter|].
    split; [|done]. rewrite Forall_forall in Hall |- *.
    intros k [_ Hk]%list_elem_of_filter. by apply Hall.
  - injection Hstep as <- <-. unfold agent_wf; simpl.
    split; [by apply NoDup_keys_update | done].
  - injection Hstep as <- <-. unfold agent_wf; simpl.
    split; [by apply NoDup_keys_update | done].
Qed.

Lemma run_cons_inv (op : Agent.Op) (ops : list Agent.Op) (a a' : Agent)
    (ids : list Z) :
  Agent.run (op :: ops) a = Some (ids, a') ->
  exists ids1 a1 ids2,
    Agent.step op a = Some (ids1, a1) /\
    Agent.run ops a1 = Some (ids2, a') /\ ids = ids1 ++ ids2.
Proof.
  cbn [Agent.run].
  destruct (Agent.step op a) as [[ids1 a1]|]; [|discriminate].
  destruct (Agent.run ops a1) as [[ids2 a2]|] eqn:Hrun; [|discriminate].
  intros [= <- <-]. eauto 10.
Qed.

Lemma run_wf (ops : list Agent.Op) (a a' : Agent) (ids : list Z) :
  agent_wf a -> Agent.run ops a = Some (ids, a') -> agent_wf a'.
Proof.
  revert a ids. induction ops as [|op ops IH]; intros a ids Hwf Hrun.
  - by injection Hrun as <- <-.
  - apply run_cons_inv in Hrun as (ids1 & a1 & ids2 & Hstep & Hrun & _).
    eapply IH; [|exact Hrun]. eapply step_wf; eassumption.
Qed.

(** ** The ids that [AddClient] hands out *)

Lemma run_ids (ops : list Agent.Op) (a a' : Agent) (ids : list Z) :
  Agent.run ops a = Some (ids, a') ->
  ids = seqZ (next_writer_id_ a) (Z.of_nat (add_client_calls ops)) /\
  next_writer_id_ a' = next_writer_id_ a + Z.of_nat (add_client_calls ops).
Proof.
  revert a ids. induction ops as [|op ops IH]; intros a ids Hrun.
  - injection Hrun as <- <-. simpl. split; [done|lia].
  - apply run_cons_inv in Hrun as (ids1 & a1 & ids2 & Hstep & Hrun & ->).
    destruct (IH _ _ Hrun) as (Hids & Hnext).
    destruct op as [categories writer mode|client|id categories|id categories];
      simpl in Hstep.
    + destruct (Agent.AddClient categories writer mode a) as [[id a0]|] eqn:Hadd;
        [|discriminate].
      injection Hstep as <- <-.
      apply AddClient_inv in Hadd as (-> & Hlt & Hn & _).
      cbn [add_client_calls]. rewrite Nat2Z.inj_succ, <- Z.add_1_r.
      rewrite Z.add_comm, seqZ_app by lia.
      rewrite Hids, Hnext, Hn. split; [|lia].
      f_equal.
    + injection Hstep as <- <-. by simpl.
    + injection Hstep as <- <-. by simpl.
    + injection Hstep as <- <-. by simpl.
Qed.

Lemma run_total (ops : list Agent.Op) (a : Agent) :
  next_writer_id_ a + Z.of_nat (add_client_calls ops) <= INT_MAX ->
  is_Some (Agent.run ops a).
Proof.
  revert a. induction ops as [|op ops IH]; intros a Hle; [by eexists|].
  cbn [Agent.run].
  destruct op as [categories writer mode|client|id categories|id categories];
    cbn [add_client_calls Agent.step] in *.
  - unfold Agent.AddClient. rewrite decide_True by lia.
    match goal with |- context [Agent.run ops ?a1] =>
      destruct (IH a1) as [[ids' a'] ->]; [simpl; lia | by eexists] end.
  - destruct (IH (Agent.Disconnect client a)) as [[ids' a'] ->];
      [done | by eexists].
  - destruct (IH (Agent.Enable id categories a)) as [[ids' a'] ->];
      [done | by eexists].
  - destruct (IH (Agent.Disable id categories a)) as [[ids' a'] ->];
      [done | by eexists].
Qed.

Lemma StronglySorted_seqZ (m : Z) (n : nat) :
  StronglySorted Z.lt (seqZ m (Z.of_nat n)).
Proof.
  induction n as [|n IH]; [constructor|].
  rewrite seqZ_S. apply StronglySorted_app_2; [|done|repeat constructor].
  intros i j Hi ->%list_elem_of_singleton. apply elem_of_seqZ in Hi. lia.
Qed.

(** C6.  Whatever is called on an agent from its initial state, the
    [AddClient] calls are given the ids 1, 2, 3, ... in the order of the
    calls: positive, increasing, each different from the others and from
    the id -1 of the default handle.  An id is not given again later,
    whatever was disconnected in between: every id handed out by
    further calls is greater than every id handed out before.  As long
    as fewer than [INT_MAX] clients are added, every call has a
    result. *)
Theorem client_ids_are_fresh (tracing_controller : option ptr)
    (ops : list Agent.Op) :
  (Z.of_nat (add_client_calls ops) < INT_MAX ->
   is_Some (Agent.run ops (Agent.init tracing_controller))) /\
  forall (ids : list Z) (a : Agent),
    Agent.run ops (Agent.init tracing_controller) = Some (ids, a) ->
    ids = seqZ 1 (Z.of_nat (add_client_calls ops)) /\
    StronglySorted Z.lt ids /\
    NoDup ids /\
    Forall (fun id => 1 <= id < INT_MAX) ids /\
    (Agent.kDefaultHandleId ∉ ids) /\
    forall (ops' : list Agent.Op) (ids' : list Z) (a' : Agent),
      Agent.run ops' a = Some (ids', a') ->
      forall i j, i ∈ ids -> j ∈ ids' -> i < j.
Proof.
  split.
  - intros Hlt. apply run_total. simpl. lia.
  - intros ids a Hrun.
    pose proof (run_wf _ _ _ _ (init_wf tracing_controller) Hrun)
      as (_ & _ & _ & Hmax).
    apply run_ids in Hrun as [Hids Hnext]. simpl in Hids, Hnext.
    split; [done|]. rewrite Hids.
    split; [apply StronglySorted_seqZ|]. split; [apply NoDup_seqZ|].
    split; [|split].
    + apply Forall_forall. intros id Hid%elem_of_seqZ. lia.
    + intros Hin%elem_of_seqZ. unfold Agent.kDefaultHandleId in Hin. lia.
    + intros ops' ids' a' Hrun' i j Hi%elem_of_seqZ Hj.
      apply run_ids in Hrun' as [-> _]. apply elem_of_seqZ in Hj. lia.
Qed.

Lemma client_ids_are_fresh_witness :
  Agent.run
    [Agent.OpAddClient ["net"] 11 Agent.kIgnoreDefaultCategories;
     Agent.OpDisconnect 1;
     Agent.OpAddClient ["gc"] 12 Agent.kUseDefaultCategories;
     Agent.OpEnable 2 ["perf"];
     Agent.OpAddClient [] 13 Agent.kUseDefaultCategories]
    (Agent.init None)
  = Some ([1; 2; 3],
          {| next_writer_id_ := 4;
             categories_ := [(2, ["gc"; "perf"]); (3, [])];
             writers_ := [(2, 12%positive); (3, 13%positive)];
             tracing_controller_ := None |}) /\
  [1; 2; 3] = seqZ 1 3 /\
  StronglySorted Z.lt [1; 2; 3] /\
  NoDup [1; 2; 3] /\
  Agent.kDefaultHandleId ∉ [1; 2; 3].
Proof.
  assert (Hrun : Agent.run
    [Agent.OpAddClient ["net"] 11 Agent.kIgnoreDefaultCategories;
     Agent.OpDisconnect 1;
     Agent.OpAddClient ["gc"] 12 Agent.kUseDefaultCategories;
     Agent.OpEnable 2 ["perf"];
     Agent.OpAddClient [] 13 Agent.kUseDefaultCategories]
    (Agent.init None)
  = Some ([1; 2; 3],
          {| next_writer_id_ := 4;
             categories_ := [(2, ["gc"; "perf"]); (3, [])];
             writers_ := [(2, 12%positive); (3, 13%positive)];
             tracing_controller_ := None |})) by reflexivity.
  split; [exact Hrun|].
  destruct (proj2 (client_ids_are_fresh None _) _ _ Hrun)
    as (Hids & Hsorted & Hnodup & _ & Hdefault & _).
  repeat split; assumption.
Defined.

(** ** The fan-out to the writers *)




(** ** Reading the joined string back *)

Lemma fields_plain (c : string) : has_comma c = false -> fields c = [c].
Proof.
  induction c as [|ch c IH]; simpl; [done|].
  destruct (Ascii.eqb ch ","%char); simpl; [discriminate|].
  intros Hc. by rewrite (IH Hc).
Qed.

Lemma fields_app (c s : string) :
  has_comma c = false ->
  fields (c +:+ "," +:+ s) = c :: fields s.
Proof.
  induction c as [|ch c IH]; simpl; [done|].
  destruct (Ascii.eqb ch ","%char); simpl; [discriminate|].
  intros Hc. by rewrite (IH Hc).
Qed.

Lemma concat_plain_nonempty (c : string) (l : list string) :
  c <> EmptyString -> String.concat "," (c :: l) <> EmptyString.
Proof.
  intros Hc. destruct c as [|ch c]; [done|]. destruct l; simpl; discriminate.
Qed.

Lemma listed_concat (l : list string) :
  Forall plain l -> listed (String.concat "," l) = l.
Proof.
  induction 1 as [|c l [Hne Hc] Hall IH]; [done|].
  unfold listed. rewrite decide_False by by apply concat_plain_nonempty.
  destruct l as [|c' l].
  - simpl. by apply fields_plain.
  - change (String.concat "," (c :: c' :: l))
      with (c +:+ "," +:+ String.concat "," (c' :: l)).
    rewrite (fields_app _ _ Hc). f_equal.
    unfold listed in IH. rewrite decide_False in IH; [exact IH|].
    apply concat_plain_nonempty.
    by destruct (Forall_cons_1 _ _ _ Hall) as [[? _] _].
Qed.

(** ** The ref-counting of categories *)

Lemma flatten_holds (a : Agent) (c : string) :
  NoDup (Table.keys (categories_ a)) ->
  c ∈ Agent.flatten (categories_ a) <-> exists id, holds a id c.
Proof.
  intros Hnd. rewrite elem_of_flatten. unfold holds. split.
  - intros (id & ms & Hin & Hc). exists id, ms.
    split; [by apply elem_find_Some | by apply count_pos].
  - intros (id & ms & Hf & Hc). exists id, ms.
    split; [by apply find_Some_elem | by apply count_pos].
Qed.

Lemma run_category_calls (ops : list Agent.Op) (a : Agent) :
  forallb category_call ops = true ->
  exists a', Agent.run ops a = Some ([], a').
Proof.
  revert a. induction ops as [|op ops IH]; intros a Hall; [by eexists|].
  simpl in Hall. apply andb_prop in Hall as [Hop Hall].
  destruct op as [categories writer mode|client|id categories|id categories];
    try discriminate; cbn [Agent.run Agent.step].
  - destruct (IH (Agent.Enable id categories a) Hall) as [a' ->]. by eexists.
  - destruct (IH (Agent.Disable id categories a) Hall) as [a' ->]. by eexists.
Qed.

(** ** The listing of the enabled categories *)




(** ** The clock of the tracing controller *)

(** C8.  [CurrentTimestampMicroseconds] returns the reading of the
    monotonic clock, a count of nanoseconds, divided by 1000 with the
    remainder dropped: the number of whole microseconds.  The quotient
    fits the signed 64-bit result, so nothing wraps; a later reading never
    gives an earlier timestamp.  The method is a function of the clock
    reading alone: it reads and writes nothing else. *)
Theorem timestamp_is_clock_div_1000 (uv_hrtime : Z) :
  0 <= uv_hrtime <= UINT64_MAX ->
  TracingController.CurrentTimestampMicroseconds uv_hrtime = uv_hrtime / 1000 /\
  0 <= TracingController.CurrentTimestampMicroseconds uv_hrtime <= INT64_MAX /\
  1000 * TracingController.CurrentTimestampMicroseconds uv_hrtime <= uv_hrtime
    < 1000 * TracingController.CurrentTimestampMicroseconds uv_hrtime + 1000 /\
  forall later,
    uv_hrtime <= later <= UINT64_MAX ->
    TracingController.CurrentTimestampMicroseconds uv_hrtime
      <= TracingController.CurrentTimestampMicroseconds later.
Proof.
  assert (Heq : forall t, 0 <= t <= UINT64_MAX ->
            TracingController.CurrentTimestampMicroseconds t = t / 1000).
  { intros t Ht. unfold TracingController.CurrentTimestampMicroseconds,
      to_int64, UINT64_MAX in *.
    rewrite Z.quot_div_nonneg by lia.
    assert (0 <= t / 1000 < 2 ^ 63).
    { split; [apply Z.div_pos; lia|].
      apply Z.div_lt_upper_bound; lia. }
    rewrite Z.mod_small by lia. lia. }
  intros Hrange. rewrite (Heq _ Hrange).
  pose proof (Z.div_mod uv_hrtime 1000 ltac:(lia)) as Hdm.
  pose proof (Z.mod_pos_bound uv_hrtime 1000 ltac:(lia)) as Hmod.
  unfold UINT64_MAX, INT64_MAX in *.
  split; [done|]. split; [|split; [lia|]].
  - split; [apply Z.div_pos; lia|].
    assert (uv_hrtime / 1000 < 2 ^ 63)
      by (apply Z.div_lt_upper_bound; lia).
    lia.
  - intros later Hlater. rewrite Heq by (unfold UINT64_MAX; lia).
    apply Z.div_le_mono; lia.
Qed.

Lemma timestamp_is_clock_div_1000_witness :
  TracingController.CurrentTimestampMicroseconds 1234567 = 1234 /\
  TracingController.CurrentTimestampMicroseconds UINT64_MAX
    = 18446744073709551.
Proof.
  split.
  - exact (proj1 (timestamp_is_clock_div_1000 1234567 ltac:(vm_compute; split; discriminate))).
  - exact (proj1 (timestamp_is_clock_div_1000 UINT64_MAX ltac:(vm_compute; split; discriminate))).
Defined.

(** ** The category sets of the binding *)

Section BindingFacts.
Context `{AgentMethods}.

Lemma handle_call_eq (w : World) (this : ptr) (h : AgentWriterHandle)
    (op : NodeCategorySet.SetOp) (categories : list string) :
  handles w !! this = Some h -> agent_alive w h ->
  match op with
  | NodeCategorySet.SetEnable => AgentWriterHandle.Enable this categories w
  | NodeCategorySet.SetDisable => AgentWriterHandle.Disable this categories w
  end =
  Some (tt,
        {| agents :=
             match agent_ h with
             | Some agent =>
                 match agents w !! agent with
                 | Some a =>
                     <[agent := op_method op (id_ h) categories a]> (agents w)
                 | None => agents w
                 end
             | None => agents w
             end;
           handles := handles w;
           category_sets := category_sets w;
           calls := calls w ++ op_calls op h categories |}).
Proof.
  intros Hh Hlive.
  unfold AgentWriterHandle.Enable, AgentWriterHandle.Disable.
  destruct op;
    step_with (get_agent_eq _ _ _ Hh);
    unfold op_calls, enable_of, disable_of;
    destruct (agent_ h) as [agent|] eqn:Hag.
  - destruct (Hlive agent Hag) as [a Ha].
    step_with (get_id_eq _ _ _ Hh).
    unfold Store.call. by rewrite Ha.
  - unfold ret. do 2 f_equal. apply World_eq; simpl; try done.
    by rewrite app_nil_r.
  - destruct (Hlive agent Hag) as [a Ha].
    step_with (get_id_eq _ _ _ Hh).
    unfold Store.call. by rewrite Ha.
  - unfold ret. do 2 f_equal. apply World_eq; simpl; try done.
    by rewrite app_nil_r.
Qed.

Lemma set_step_eq (env : Environment) (writer holder : ptr)
    (h : AgentWriterHandle) (s : NodeCategorySet) (w : World)
    (op : NodeCategorySet.SetOp) :
  binding_setup env writer holder h s w ->
  NodeCategorySet.set_step env holder op w =
    Some (tt, after_set_op op holder h s w).
Proof.
  intros (Henv & Hh & Hlive & Hs).
  unfold after_set_op, op_guard, enable_guard, disable_guard.
  destruct op; simpl;
    unfold NodeCategorySet.Enable, NodeCategorySet.Disable,
      NodeCategorySet.GetCategories; rewrite Hs.
  - destruct (negb (enabled_ s) &&
              negb (NodeCategorySet.set_empty (set_categories_ s)));
      [|done].
    unfold NodeCategorySet.through_writer. rewrite Henv.
    step_with (handle_call_eq _ _ _ NodeCategorySet.SetEnable _ Hh Hlive).
    unfold Store.load_set, Store.store_set, bind; simpl. by rewrite Hs.
  - destruct (enabled_ s &&
              negb (NodeCategorySet.set_empty (set_categories_ s)));
      [|done].
    unfold NodeCategorySet.through_writer. rewrite Henv.
    step_with (handle_call_eq _ _ _ NodeCategorySet.SetDisable _ Hh Hlive).
    unfold Store.load_set, Store.store_set, bind; simpl. by rewrite Hs.
Qed.

(** A call leaves the setting as it found it, but for the state of the
    set. *)
Lemma after_set_op_setup (env : Environment) (writer holder : ptr)
    (h : AgentWriterHandle) (s : NodeCategorySet) (w : World)
    (op : NodeCategorySet.SetOp) :
  binding_setup env writer holder h s w ->
  binding_setup env writer holder h
    (if op_guard op s then op_sets op s else s)
    (after_set_op op holder h s w).
Proof.
  intros (Henv & Hh & Hlive & Hs). unfold after_set_op.
  destruct (op_guard op s); [|done].
  split; [done|]. split; [done|]. split; [|apply lookup_insert_eq].
  intros agent Hag. simpl. rewrite Hag.
  destruct (Hlive agent Hag) as [a Ha]. rewrite Ha.
  rewrite lookup_insert_eq. by eexists.
Qed.

Lemma after_set_op_calls (op : NodeCategorySet.SetOp) (holder : ptr)
    (h : AgentWriterHandle) (s : NodeCategorySet) (w : World) :
  calls (after_set_op op holder h s w) =
    calls w ++
      (if op_guard op s then op_calls op h (set_categories_ s) else []).
Proof.
  unfold after_set_op. destruct (op_guard op s); [done|].
  by rewrite app_nil_r.
Qed.

Lemma op_guard_again (op : NodeCategorySet.SetOp) (s : NodeCategorySet) :
  op_guard op (if op_guard op s then op_sets op s else s) = false.
Proof.
  destruct op, s as [[] [|c l]]; reflexivity.
Qed.

Lemma outstanding_app (l1 l2 : list AgentCall) :
  outstanding (l1 ++ l2) = outstanding l1 + outstanding l2.
Proof.
  induction l1 as [|c l1 IH]; [done|]. destruct c; simpl; lia.
Qed.

Lemma set_run_calls (env : Environment) (writer holder : ptr)
    (h : AgentWriterHandle) (ops : list NodeCategorySet.SetOp)
    (s : NodeCategorySet) (w : World) :
  binding_setup env writer holder h s w ->
  exists w' l s',
    NodeCategorySet.set_run env holder ops w = Some (tt, w') /\
    calls w' = calls w ++ l /\
    binding_setup env writer holder h s' w' /\
    set_categories_ s' = set_categories_ s /\
    (is_Some (agent_ h) ->
     outstanding l = Z.b2z (enabled_ s') - Z.b2z (enabled_ s)).
Proof.
  revert s w. induction ops as [|op ops IH]; intros s w Hsetup.
  - exists w, [], s. split; [done|]. split; [by rewrite app_nil_r|].
    split; [done|]. split; [done|]. intros _. simpl. lia.
  - cbn [NodeCategorySet.set_run].
    step_with (set_step_eq _ _ _ _ _ _ op Hsetup).
    destruct (IH _ _ (after_set_op_setup _ _ _ _ _ _ op Hsetup))
      as (w' & l & s' & Hrun & Hcalls & Hsetup' & Hcats & Hout).
    exists w', ((if op_guard op s then op_calls op h (set_categories_ s)
                 else []) ++ l), s'.
    split; [exact Hrun|]. split.
    { by rewrite Hcalls, after_set_op_calls, app_assoc. }
    split; [exact Hsetup'|]. split.
    { rewrite Hcats. by destruct (op_guard op s), op. }
    intros [agent Hag]. rewrite outstanding_app.
    assert (Hbound : is_Some (agent_ h)) by by eexists.
    specialize (Hout Hbound). revert Hout.
    unfold op_guard, enable_guard, disable_guard, op_calls, enable_of,
      disable_of.
    rewrite Hag. clear.
    destruct op, s as [[] [|c cs]]; simpl; lia.
Qed.

End BindingFacts.

(** *** What the agent of the specification counts *)

Lemma count_cons (c x : string) (m : list string) :
  Std.count c (x :: m) =
    ((if decide (x = c) then 1 else 0) + Std.count c m)%nat.
Proof.
  unfold Std.count. rewrite filter_cons. by destruct (decide (x = c)).
Qed.

Lemma count_multiset_insert (c x : string) (m : list string) :
  Std.count c (Std.multiset_insert x m) =
    ((if decide (x = c) then 1 else 0) + Std.count c m)%nat.
Proof.
  induction m as [|y m IH]; simpl.
  - by rewrite !count_cons.
  - destruct (String.ltb x y); rewrite !count_cons; [done|].
    rewrite IH. lia.
Qed.

Lemma count_multiset_insert_range (c : string) (l m : list string) :
  Std.count c (Std.multiset_insert_range l m) =
    (Std.count c l + Std.count c m)%nat.
Proof.
  unfold Std.multiset_insert_range. revert m.
  induction l as [|x l IH]; intros m; simpl; [done|].
  rewrite IH, count_multiset_insert, count_cons. lia.
Qed.

Lemma count_multiset_erase_one (c x : string) (m : list string) :
  Std.count c (Std.multiset_erase_one x m) =
    (Std.count c m - (if decide (x = c) then 1 else 0))%nat.
Proof.
  induction m as [|y m IH]; simpl.
  - by destruct (decide (x = c)).
  - destruct (String.eqb_spec x y) as [->|Hne]; rewrite !count_cons.
    + destruct (decide (y = c)); lia.
    + rewrite IH. destruct (decide (x = c)), (decide (y = c)); try lia.
      congruence.
Qed.

Lemma count_multiset_erase_range (c : string) (l m : list string) :
  Std.count c (Std.multiset_erase_range l m) =
    (Std.count c m - Std.count c l)%nat.
Proof.
  unfold Std.multiset_erase_range. revert m.
  induction l as [|x l IH]; intros m; simpl.
  - unfold Std.count at 3. simpl. lia.
  - rewrite IH, count_multiset_erase_one, count_cons. lia.
Qed.

Lemma count_NoDup (c : string) (l : list string) :
  NoDup l -> Std.count c l = if bool_decide (c ∈ l) then 1%nat else 0%nat.
Proof.
  induction 1 as [|x l Hout Hnd IH].
  - by rewrite bool_decide_eq_false_2 by apply not_elem_of_nil.
  - rewrite count_cons, IH. destruct (decide (x = c)) as [->|Hne].
    + rewrite bool_decide_eq_false_2 by done.
      by rewrite bool_decide_eq_true_2 by apply list_elem_of_here.
    + destruct (decide (c ∈ l)) as [Hin|Hnin].
      * rewrite !bool_decide_eq_true_2; [done| |done].
        by apply list_elem_of_further.
      * rewrite !bool_decide_eq_false_2; [done| |done].
        intros [->|?]%elem_of_cons; done.
Qed.

Lemma multiset_of_Enable (a : Agent) (id : Z) (categories : list string) :
  multiset_of (Agent.Enable id categories a) id =
    Std.multiset_insert_range categories (multiset_of a id).
Proof. unfold multiset_of. simpl. by rewrite find_update_eq. Qed.

Lemma multiset_of_Disable (a : Agent) (id : Z) (categories : list string) :
  multiset_of (Agent.Disable id categories a) id =
    Std.multiset_erase_range categories (multiset_of a id).
Proof. unfold multiset_of. simpl. by rewrite find_update_eq. Qed.

Lemma set_run_counts (env : Environment) (writer holder agent : ptr) (id : Z)
    (ops : list NodeCategorySet.SetOp) (s : NodeCategorySet) (w : World)
    (a : Agent) (base : string -> nat) :
  binding_setup env writer holder {| agent_ := Some agent; id_ := id |} s w ->
  agents w !! agent = Some a ->
  NoDup (set_categories_ s) ->
  (forall c,
     Std.count c (multiset_of a id) =
       (base c + if enabled_ s && bool_decide (c ∈ set_categories_ s)
                 then 1 else 0)%nat) ->
  exists w' a' s',
    NodeCategorySet.set_run env holder ops w = Some (tt, w') /\
    agents w' !! agent = Some a' /\
    category_sets w' !! holder = Some s' /\
    set_categories_ s' = set_categories_ s /\
    forall c,
      Std.count c (multiset_of a' id) =
        (base c + if enabled_ s' && bool_decide (c ∈ set_categories_ s)
                  then 1 else 0)%nat.
Proof.
  revert s w a. induction ops as [|op ops IH]; intros s w a Hsetup Ha Hnd Hc.
  - exists w, a, s. repeat split; try done. by destruct Hsetup as (_ & _ & _ & ?).
  - cbn [NodeCategorySet.set_run].
    step_with (set_step_eq _ _ _ _ _ _ op Hsetup).
    pose proof (after_set_op_setup _ _ _ _ _ _ op Hsetup) as Hsetup1.
    set (s1 := if op_guard op s then op_sets op s else s) in *.
    set (w1 := after_set_op op holder _ s w) in *.
    assert (Hcats : set_categories_ s1 = set_categories_ s)
      by (subst s1; by destruct (op_guard op s), op).
    assert (Hstep : exists a1,
               agents w1 !! agent = Some a1 /\
               forall c,
                 Std.count c (multiset_of a1 id) =
                   (base c + if enabled_ s1 &&
                                bool_decide (c ∈ set_categories_ s)
                             then 1 else 0)%nat).
    { subst w1 s1. unfold after_set_op.
      destruct (op_guard op s) eqn:Hguard; [|by exists a].
      simpl. rewrite Ha. eexists. split; [apply lookup_insert_eq|].
      intros c. specialize (Hc c). revert Hguard Hc.
      unfold op_guard, enable_guard, disable_guard.
      destruct op; simpl; intros [He _]%andb_prop.
      - apply negb_true_iff in He. rewrite He. simpl.
        rewrite multiset_of_Enable, count_multiset_insert_range.
        rewrite (count_NoDup _ _ Hnd). intros ->.
        destruct (bool_decide (c ∈ set_categories_ s)); lia.
      - rewrite He. simpl.
        rewrite multiset_of_Disable, count_multiset_erase_range.
        rewrite (count_NoDup _ _ Hnd). intros ->.
        destruct (bool_decide (c ∈ set_categories_ s)); lia. }
    destruct Hstep as (a1 & Ha1 & Hc1).
    rewrite <- Hcats in Hnd.
    destruct (IH s1 w1 a1 Hsetup1 Ha1 Hnd) as (w' & a' & s' & Hrun & Ha' & Hs' & Hcats' & Hc').
    { intros c. rewrite Hcats. apply Hc1. }
    exists w', a', s'. split; [exact Hrun|]. split; [exact Ha'|].
    split; [exact Hs'|]. split; [congruence|].
    intros c. rewrite <- Hcats. apply Hc'.
Qed.

(** *** Sets made by [New] *)

Lemma string_lt_trans (a b c : string) :
  string_lt a b -> string_lt b c -> string_lt a c.
Proof.
  unfold string_lt. intros Hab Hbc.
  apply OrderedTypeEx.String_as_OT.cmp_lt.
  apply OrderedTypeEx.String_as_OT.cmp_lt in Hab, Hbc.
  eapply OrderedTypeEx.String_as_OT.lt_trans; eassumption.
Qed.

Lemma string_lt_irrefl (a : string) : ~ string_lt a a.
Proof.
  unfold string_lt. intros Hlt.
  assert (Heq : String.compare a a = Eq)
    by (by apply OrderedTypeEx.String_as_OT.cmp_eq).
  congruence.
Qed.

Lemma elem_of_set_insert (x c : string) (s : list string) :
  c ∈ Std.set_insert x s <-> c = x \/ c ∈ s.
Proof.
  induction s as [|y s IH]; simpl.
  - rewrite list_elem_of_singleton, elem_of_nil. tauto.
  - destruct (String.compare x y) eqn:Hcmp.
    + apply String.compare_eq_iff in Hcmp as ->.
      rewrite elem_of_cons. tauto.
    + rewrite !elem_of_cons. tauto.
    + rewrite !elem_of_cons, IH. tauto.
Qed.

Lemma set_insert_sorted (x : string) (s : list string) :
  StronglySorted string_lt s -> StronglySorted string_lt (Std.set_insert x s).
Proof.
  induction 1 as [|y s Hs IH Hall]; simpl; [repeat constructor|].
  destruct (String.compare x y) eqn:Hcmp.
  - by constructor.
  - constructor; [by constructor|]. constructor; [done|].
    eapply Forall_impl; [exact Hall|]. intros z Hz.
    by apply (string_lt_trans x y z).
  - constructor; [done|]. apply Forall_forall.
    intros z [->|Hz]%elem_of_set_insert.
    + unfold string_lt. rewrite String.compare_antisym, Hcmp. done.
    + rewrite Forall_forall in Hall. by apply Hall.
Qed.

Lemma sorted_NoDup (s : list string) : StronglySorted string_lt s -> NoDup s.
Proof.
  induction 1 as [|y s Hs IH Hall]; [apply NoDup_nil_2|].
  apply NoDup_cons. split; [|done]. intros Hin.
  rewrite Forall_forall in Hall. by apply (string_lt_irrefl y), Hall.
Qed.

Lemma New_loop_sorted (cats : list (option string)) (acc categories : list string) :
  StronglySorted string_lt acc ->
  NodeCategorySet.New_loop cats acc = Some categories ->
  StronglySorted string_lt categories.
Proof.
  revert acc. induction cats as [|[val|] cats IH]; intros acc Hacc; simpl.
  - by intros [= <-].
  - apply IH. by apply set_insert_sorted.
  - discriminate.
Qed.

Lemma New_eq (env : Environment) (this writer : ptr)
    (cats : list (option string)) (categories : list string) (w : World) :
  tracing_agent_writer env = Some writer ->
  NodeCategorySet.New_loop cats [] = Some categories ->
  NodeCategorySet.New env this cats w =
    Some (tt, {| agents := agents w;
                 handles := handles w;
                 category_sets :=
                   <[this := {| enabled_ := false;
                                set_categories_ := categories |}]>
                     (category_sets w);
                 calls := calls w |}) /\
  NoDup categories.
Proof.
  intros Henv Hloop. unfold NodeCategorySet.New. rewrite Hloop, Henv.
  split; [done|]. apply sorted_NoDup.
  eapply New_loop_sorted; [constructor | exact Hloop].
Qed.

(** C10, as the code has it.  [Enable] passes the categories of a set on
    to the writer handle exactly when the set is not enabled and has a
    category, and then marks it enabled; [Disable] does so exactly when
    the set is enabled and has a category, and then marks it not
    enabled.  The same call made twice in a row passes them on at most
    once: once, through a bound handle, when the first call finds its
    guard true, and not at all otherwise.  Over any sequence of calls on
    a set, through a bound handle, the [Enable] calls that reached the
    agent exceed the [Disable] calls by one when the set ends enabled
    after starting not enabled, and by none when it ends as it started.
    For the agent of the specification and a set that starts not
    enabled, as every set made by [New] does, the count that the agent
    keeps for a category is the count before the calls, plus one exactly
    when the set is enabled and has the category. *)
Theorem category_set_counted_at_most_once :
  (forall (H : AgentMethods) (env : Environment) (writer holder : ptr)
          (h : AgentWriterHandle) (s : NodeCategorySet) (w : World),
     binding_setup env writer holder h s w ->
     (forall op,
        exists w',
          NodeCategorySet.set_step env holder op w = Some (tt, w') /\
          calls w' =
            calls w ++
              (if op_guard op s then op_calls op h (set_categories_ s)
               else []) /\
          category_sets w' !! holder =
            Some (if op_guard op s then op_sets op s else s)) /\
     (forall op,
        exists w',
          NodeCategorySet.set_run env holder [op; op] w = Some (tt, w') /\
          calls w' =
            calls w ++
              (if op_guard op s then op_calls op h (set_categories_ s)
               else [])) /\
     (forall ops,
        exists w' l s',
          NodeCategorySet.set_run env holder ops w = Some (tt, w') /\
          calls w' = calls w ++ l /\
          category_sets w' !! holder = Some s' /\
          set_categories_ s' = set_categories_ s /\
          (is_Some (agent_ h) ->
           outstanding l = Z.b2z (enabled_ s') - Z.b2z (enabled_ s)))) /\
  (forall (env : Environment) (writer holder agent : ptr) (id : Z)
          (s : NodeCategorySet) (w : World) (a : Agent)
          (ops : list NodeCategorySet.SetOp),
     binding_setup env writer holder {| agent_ := Some agent; id_ := id |}
       s w ->
     agents w !! agent = Some a ->
     enabled_ s = false ->
     NoDup (set_categories_ s) ->
     exists w' a' s',
       NodeCategorySet.set_run env holder ops w = Some (tt, w') /\
       agents w' !! agent = Some a' /\
       category_sets w' !! holder = Some s' /\
       forall c,
         Std.count c (multiset_of a' id) =
           (Std.count c (multiset_of a id)
            + if enabled_ s' && bool_decide (c ∈ set_categories_ s)
              then 1 else 0)%nat) /\
  (forall (env : Environment) (this writer : ptr)
          (cats : list (option string)) (categories : list string)
          (w : World),
     tracing_agent_writer env = Some writer ->
     NodeCategorySet.New_loop cats [] = Some categories ->
     exists w',
       NodeCategorySet.New env this cats w = Some (tt, w') /\
       category_sets w' !! this =
         Some {| enabled_ := false; set_categories_ := categories |} /\
       NoDup categories /\
       calls w' = calls w).
Proof.
  split; [|split].
  - intros H env writer holder h s w Hsetup. split; [|split].
    + intros op. eexists.
      split; [apply (set_step_eq _ _ _ _ _ _ op Hsetup)|].
      split; [apply after_set_op_calls|].
      by destruct (after_set_op_setup _ _ _ _ _ _ op Hsetup)
        as (_ & _ & _ & ?).
    + intros op. cbn [NodeCategorySet.set_run].
      step_with (set_step_eq _ _ _ _ _ _ op Hsetup).
      pose proof (after_set_op_setup _ _ _ _ _ _ op Hsetup) as Hsetup1.
      step_with (set_step_eq _ _ _ _ _ _ op Hsetup1).
      eexists. split; [reflexivity|].
      rewrite after_set_op_calls, op_guard_again, app_nil_r.
      apply after_set_op_calls.
    + intros ops.
      destruct (set_run_calls _ _ _ _ ops _ _ Hsetup)
        as (w' & l & s' & Hrun & Hcalls & (_ & _ & _ & Hs') & Hcats & Hout).
      by exists w', l, s'.
  - intros env writer holder agent id s w a ops Hsetup Ha Hen Hnd.
    destruct (set_run_counts _ _ _ _ _ ops _ _ _
                (fun c => Std.count c (multiset_of a id)) Hsetup Ha Hnd)
      as (w' & a' & s' & Hrun & Ha' & Hs' & _ & Hc).
    { intros c. rewrite Hen. simpl. lia. }
    by exists w', a', s'.
  - intros env this writer cats categories w Henv Hloop.
    destruct (New_eq env this writer cats categories w Henv Hloop)
      as [Hnew Hnd].
    eexists. split; [exact Hnew|]. simpl.
    split; [apply lookup_insert_eq | done].
Qed.

(** C10, as stated, fails: two [Disable] calls in a row on a set that is
    not enabled reach the agent zero times, not once, and so do two
    [Enable] calls in a row on a set without categories. *)
Lemma twice_forwards_once_fails_on_new_set :
  ~ twice_forwards_once example_env 30 NodeCategorySet.SetDisable
      example_binding /\
  ~ twice_forwards_once example_env 31 NodeCategorySet.SetEnable
      example_binding.
Proof.
  split; intros Hc;
    destruct (Hc example_binding eq_refl) as [c Hcalls]; discriminate.
Qed.

Lemma category_set_counted_at_most_once_witness :
  (exists w',
     NodeCategorySet.set_run example_env 30
       [NodeCategorySet.SetEnable; NodeCategorySet.SetEnable]
       example_binding = Some (tt, w') /\
     calls w' = [CallEnable 1 1 ["node.perf"; "v8"]]) /\
  (exists w' a',
     NodeCategorySet.set_run example_env 30
       [NodeCategorySet.SetEnable; NodeCategorySet.SetDisable;
        NodeCategorySet.SetDisable; NodeCategorySet.SetEnable]
       example_binding = Some (tt, w') /\
     agents w' !! 1%positive = Some a' /\
     Std.count "v8" (multiset_of a' 1) = 1%nat /\
     Std.count "net" (multiset_of a' 1) = 1%nat) /\
  (exists w',
     NodeCategorySet.New example_env 32 [Some "v8"; Some "gc"; Some "v8"]
       example_binding = Some (tt, w') /\
     category_sets w' !! 32%positive =
       Some {| enabled_ := false; set_categories_ := ["gc"; "v8"] |}).
Proof.
  destruct category_set_counted_at_most_once as (Hcalls & Hcount & Hnew).
  assert (Hsetup : binding_setup example_env 5 30
                     {| agent_ := Some 1%positive; id_ := 1 |}
                     {| enabled_ := false;
                        set_categories_ := ["node.perf"; "v8"] |}
                     example_binding).
  { repeat split. intros agent [= <-]. by eexists. }
  split; [|split].
  - destruct (Hcalls spec_agent _ _ _ _ _ _ Hsetup) as (_ & Htwice & _).
    destruct (Htwice NodeCategorySet.SetEnable) as (w' & Hrun & Hc).
    exists w'. split; [exact Hrun | exact Hc].
  - destruct (Hcount _ _ _ _ _ _ _ example_agent
                [NodeCategorySet.SetEnable; NodeCategorySet.SetDisable;
                 NodeCategorySet.SetDisable; NodeCategorySet.SetEnable]
                Hsetup eq_refl eq_refl)
      as (w' & a' & s' & Hrun & Ha' & Hs' & Hc).
    { apply NoDup_cons. split; [|apply NoDup_singleton].
      intros Hin%list_elem_of_singleton. discriminate. }
    exists w', a'. split; [exact Hrun|]. split; [exact Ha'|].
    assert (Hen : enabled_ s' = true).
    { vm_compute in Hrun. injection Hrun as <-.
      vm_compute in Hs'. by injection Hs' as <-. }
    split; rewrite Hc, Hen; reflexivity.
  - destruct (Hnew example_env 32%positive 5%positive
                [Some "v8"; Some "gc"; Some "v8"] ["gc"; "v8"]
                example_binding eq_refl eq_refl)
      as (w' & Hrun & Hs & _).
    exists w'. split; [exact Hrun | exact Hs].
Defined.

(** ** The ref-counts, told from the calls *)

Lemma multiset_of_Enable_ne (a : Agent) (id id' : Z)
    (categories : list string) :
  id' <> id ->
  multiset_of (Agent.Enable id' categories a) id = multiset_of a id.
Proof. intros Hne. unfold multiset_of. simpl. by rewrite find_update_ne. Qed.

Lemma multiset_of_Disable_ne (a : Agent) (id id' : Z)
    (categories : list string) :
  id' <> id ->
  multiset_of (Agent.Disable id' categories a) id = multiset_of a id.
Proof. intros Hne. unfold multiset_of. simpl. by rewrite find_update_ne. Qed.

Lemma holds_count (a : Agent) (id : Z) (c : string) :
  holds a id c <-> (0 < Std.count c (multiset_of a id))%nat.
Proof.
  unfold holds, multiset_of. destruct (Table.find id (categories_ a)) as [ms|].
  - split; [by intros (ms' & [= <-] & Hc) | intros Hc; by exists ms].
  - split; [by intros (ms' & Hf & _) | simpl; unfold Std.count; simpl; lia].
Qed.

Lemma step_count (op : Agent.Op) (a : Agent) :
  category_call op = true ->
  exists a',
    Agent.step op a = Some ([], a') /\
    forall id c,
      Std.count c (multiset_of a' id) =
        count_after op id c (Std.count c (multiset_of a id)).
Proof.
  destruct op as [categories writer mode|client|id' categories|id' categories];
    try discriminate; intros _; eexists; (split; [reflexivity|]);
    intros id c; simpl; destruct (decide (id' = id)) as [->|Hne].
  - rewrite multiset_of_Enable, count_multiset_insert_range. lia.
  - by rewrite multiset_of_Enable_ne.
  - by rewrite multiset_of_Disable, count_multiset_erase_range.
  - by rewrite multiset_of_Disable_ne.
Qed.

Lemma run_count (ops : list Agent.Op) (a : Agent) :
  forallb category_call ops = true ->
  exists a',
    Agent.run ops a = Some ([], a') /\
    forall id c,
      Std.count c (multiset_of a' id) =
        held_count id c (Std.count c (multiset_of a id)) ops.
Proof.
  revert a. induction ops as [|op ops IH]; intros a Hall; [by exists a|].
  simpl in Hall. apply andb_prop in Hall as [Hop Hall].
  destruct (step_count op a Hop) as (a1 & Hstep & Hcount1).
  destruct (IH a1 Hall) as (a' & Hrun & Hcount).
  exists a'. split.
  - cbn [Agent.run]. rewrite Hstep, Hrun. done.
  - intros id c. cbn [held_count]. by rewrite Hcount, Hcount1.
Qed.

(** C1.  After any sequence of [Enable] and [Disable] calls on a new
    agent, the count of a category that an id holds is the one that the
    calls for that id leave: each [Enable] with the category adds one,
    each [Disable] with it takes one away as long as there is one.  The
    categories that [GetEnabledCategories] joins with commas are, each
    once, exactly those that some id holds with a positive count; when no
    held category is empty or contains a comma, they are also exactly the
    categories that the returned string lists between its commas.  After
    [Enable(1,{a}); Enable(2,{a}); Disable(1,{a})] the string is ["a"],
    held by id 2 alone; after a further [Disable(2,{a})] it is empty and
    no id holds [a]. *)
Theorem enabled_iff_held (tracing_controller : option ptr) :
  (forall ops : list Agent.Op,
     forallb category_call ops = true ->
     exists a,
       Agent.run ops (Agent.init tracing_controller) = Some ([], a) /\
       (forall id c,
          Std.count c (multiset_of a id) = held_count id c 0 ops) /\
       (forall id c, holds a id c <-> (0 < held_count id c 0 ops)%nat) /\
       Agent.GetEnabledCategories a
         = String.concat "," (Agent.flatten (categories_ a)) /\
       NoDup (Agent.flatten (categories_ a)) /\
       (forall c, c ∈ Agent.flatten (categories_ a) <->
                  exists id, (0 < held_count id c 0 ops)%nat) /\
       ((forall id c, (0 < held_count id c 0 ops)%nat -> plain c) ->
        forall c, c ∈ listed (Agent.GetEnabledCategories a) <->
                  exists id, (0 < held_count id c 0 ops)%nat)) /\
  (exists a,
     Agent.run [Agent.OpEnable 1 ["a"]; Agent.OpEnable 2 ["a"];
                Agent.OpDisable 1 ["a"]]
       (Agent.init tracing_controller) = Some ([], a) /\
     Agent.GetEnabledCategories a = "a" /\
     holds a 2 "a" /\ ~ holds a 1 "a") /\
  (exists a,
     Agent.run [Agent.OpEnable 1 ["a"]; Agent.OpEnable 2 ["a"];
                Agent.OpDisable 1 ["a"]; Agent.OpDisable 2 ["a"]]
       (Agent.init tracing_controller) = Some ([], a) /\
     Agent.GetEnabledCategories a = "" /\
     forall id, ~ holds a id "a").
Proof.
  split; [|split].
  - intros ops Hall.
    destruct (run_count ops (Agent.init tracing_controller) Hall)
      as (a & Hrun & Hcount).
    exists a. split; [done|].
    assert (Hheld : forall id c,
              holds a id c <-> (0 < held_count id c 0 ops)%nat).
    { intros id c. rewrite holds_count, Hcount. done. }
    pose proof (run_wf _ _ _ _ (init_wf tracing_controller) Hrun)
      as (Hnd & _).
    assert (Hjoined : forall c,
              c ∈ Agent.flatten (categories_ a) <->
              exists id, (0 < held_count id c 0 ops)%nat).
    { intros c. rewrite (flatten_holds a c Hnd).
      split; intros [id Hid]; exists id; by apply Hheld. }
    split; [exact Hcount|]. split; [exact Hheld|]. split; [done|].
    split; [apply NoDup_flatten|]. split; [exact Hjoined|].
    intros Hplain c. unfold Agent.GetEnabledCategories.
    rewrite listed_concat; [apply Hjoined|].
    apply Forall_forall. intros c' Hc'.
    apply Hjoined in Hc' as [id Hid]. by apply (Hplain id).
  - eexists. split; [reflexivity|]. split; [reflexivity|]. split.
    + exists ["a"]. split; [reflexivity|].
      apply count_pos, list_elem_of_here.
    + intros (ms & [= <-] & Hc%count_pos). by apply elem_of_nil in Hc.
  - eexists. split; [reflexivity|]. split; [reflexivity|].
    intros id (ms & Hf & Hc%count_pos). simpl in Hf.
    repeat case_decide; simplify_eq; by apply elem_of_nil in Hc.
Qed.

Lemma string_lists_held_fails_on_comma_and_empty :
  ~ string_lists_held [Agent.OpEnable 1 ["a,b"]] /\
  ~ string_lists_held [Agent.OpEnable 1 [""]].
Proof.
  split; intros (a & Hrun & Hlisted).
  - vm_compute in Hrun. injection Hrun as <-.
    destruct (proj1 (Hlisted "a")) as (id & ms & Hf & Hc%count_pos).
    { vm_compute. apply list_elem_of_here. }
    simpl in Hf. case_decide; [|done]. injection Hf as <-.
    apply list_elem_of_singleton in Hc. discriminate.
  - vm_compute in Hrun. injection Hrun as <-.
    assert (Hin : "" ∈ listed (Agent.GetEnabledCategories
                     {| next_writer_id_ := 1;
                        categories_ := [(1, [""])];
                        writers_ := [];
                        tracing_controller_ := None |})).
    { apply Hlisted. exists 1, [""]. split; [reflexivity|].
      apply count_pos, list_elem_of_here. }
    vm_compute in Hin. by apply elem_of_nil in Hin.
Qed.

Lemma enabled_iff_held_witness :
  exists a,
    Agent.run [Agent.OpEnable 1 ["net"; "v8"]; Agent.OpEnable 2 ["v8"];
               Agent.OpDisable 1 ["net"]]
      (Agent.init None) = Some ([], a) /\
    Agent.GetEnabledCategories a = "v8" /\
    Std.count "v8" (multiset_of a 1) = 1%nat /\
    Std.count "net" (multiset_of a 1) = 0%nat /\
    ("v8" ∈ listed (Agent.GetEnabledCategories a) <->
     exists id,
       (0 < held_count id "v8" 0
              [Agent.OpEnable 1 ["net"; "v8"]; Agent.OpEnable 2 ["v8"];
               Agent.OpDisable 1 ["net"]])%nat) /\
    ("net" ∈ listed (Agent.GetEnabledCategories a) <->
     exists id,
       (0 < held_count id "net" 0
              [Agent.OpEnable 1 ["net"; "v8"]; Agent.OpEnable 2 ["v8"];
               Agent.OpDisable 1 ["net"]])%nat).
Proof.
  destruct (proj1 (enabled_iff_held None)
              [Agent.OpEnable 1 ["net"; "v8"]; Agent.OpEnable 2 ["v8"];
               Agent.OpDisable 1 ["net"]] eq_refl)
    as (a & Hrun & Hcount & _ & Hjoin & _ & Hjoined & Hstring).
  exists a. split; [exact Hrun|].
  assert (Ha : a = {| next_writer_id_ := 1;
                      categories_ := [(1, ["v8"]); (2, ["v8"])];
                      writers_ := [];
                      tracing_controller_ := None |}).
  { vm_compute in Hrun. by injection Hrun as <-. }
  split; [by rewrite Ha|].
  split; [exact (Hcount 1 "v8")|]. split; [exact (Hcount 1 "net")|].
  assert (Hplain : forall id c,
            (0 < held_count id c 0
                   [Agent.OpEnable 1 ["net"; "v8"]; Agent.OpEnable 2 ["v8"];
                    Agent.OpDisable 1 ["net"]])%nat -> plain c).
  { intros id c Hc.
    assert (Hin : c ∈ Agent.flatten (categories_ a))
      by (apply Hjoined; by exists id).
    rewrite Ha in Hin. vm_compute in Hin.
    apply list_elem_of_singleton in Hin as ->. split; [discriminate|done]. }
  split; apply (Hstring Hplain).
Defined.

(** * Further properties of the code *)

(** ** [NodeCategorySet::New] *)

Lemma New_loop_Some (vals : list string) (acc : list string) :
  NodeCategorySet.New_loop (Some <$> vals) acc =
    Some (foldl (fun s v => Std.set_insert (NodeCategorySet.c_str v) s)
            acc vals).
Proof.
  revert acc. induction vals as [|v vals IH]; intros acc; [done|].
  simpl. apply IH.
Qed.


Lemma elem_of_inserted (vals : list string) (acc : list string) (c : string) :
  c ∈ foldl (fun s v => Std.set_insert (NodeCategorySet.c_str v) s) acc vals
  <-> c ∈ acc \/ c ∈ NodeCategorySet.c_str <$> vals.
Proof.
  revert acc. induction vals as [|v vals IH]; intros acc; simpl.
  - rewrite elem_of_nil. tauto.
  - rewrite IH, elem_of_set_insert, elem_of_cons. tauto.
Qed.

Lemma inserted_sorted (vals : list string) (acc : list string) :
  StronglySorted string_lt acc ->
  StronglySorted string_lt
    (foldl (fun s v => Std.set_insert (NodeCategorySet.c_str v) s) acc vals).
Proof.
  revert acc. induction vals as [|v vals IH]; intros acc Hacc; [done|].
  simpl. apply IH. by apply set_insert_sorted.
Qed.

(** Two strictly increasing lists with the same elements are one list. *)
Lemma sorted_ext (l1 l2 : list string) :
  StronglySorted string_lt l1 -> StronglySorted string_lt l2 ->
  (forall c, c ∈ l1 <-> c ∈ l2) -> l1 = l2.
Proof.
  intros H1. revert l2. induction H1 as [|x l1 Hs1 IH Hall1]; intros l2 H2 Heq.
  - destruct l2 as [|y l2]; [done|].
    exfalso. apply (not_elem_of_nil y). apply Heq, list_elem_of_here.
  - destruct H2 as [|y l2 Hs2 Hall2].
    + exfalso. apply (not_elem_of_nil x). apply Heq, list_elem_of_here.
    + rewrite Forall_forall in Hall1, Hall2.
      assert (Hxy : x = y).
      { pose proof (proj1 (Heq x) (list_elem_of_here _ _)) as Hx.
        pose proof (proj2 (Heq y) (list_elem_of_here _ _)) as Hy.
        apply elem_of_cons in Hx as [?|Hx]; [done|].
        apply elem_of_cons in Hy as [?|Hy]; [done|].
        exfalso. apply (string_lt_irrefl x).
        apply (string_lt_trans x y x); [by apply Hall1 | by apply Hall2]. }
      subst y. f_equal. apply IH; [done|]. intros c. split; intros Hc.
      * pose proof (proj1 (Heq c) (list_elem_of_further _ _ _ Hc)) as Hc'.
        apply elem_of_cons in Hc' as [->|?]; [|done].
        exfalso. by apply (string_lt_irrefl x), Hall1.
      * pose proof (proj2 (Heq c) (list_elem_of_further _ _ _ Hc)) as Hc'.
        apply elem_of_cons in Hc' as [->|?]; [|done].
        exfalso. by apply (string_lt_irrefl x), Hall2.
Qed.

Lemma c_str_no_nul (s : string) : has_nul (NodeCategorySet.c_str s) = false.
Proof.
  induction s as [|ch s IH]; simpl; [done|].
  destruct (Ascii.eqb ch Ascii.zero) eqn:Hch; simpl; [done|].
  by rewrite Hch, IH.
Qed.

Lemma c_str_id (s : string) : has_nul s = false -> NodeCategorySet.c_str s = s.
Proof.
  induction s as [|ch s IH]; simpl; [done|].
  destruct (Ascii.eqb ch Ascii.zero); simpl; [discriminate|].
  intros Hs. by rewrite IH.
Qed.

Lemma c_str_prefix (s : string) :
  exists rest, s = NodeCategorySet.c_str s +:+ rest.
Proof.
  induction s as [|ch s [rest IH]]; simpl; [by exists EmptyString|].
  destruct (Ascii.eqb ch Ascii.zero).
  - by exists (String ch s).
  - exists rest.
    change (String ch s = String ch (NodeCategorySet.c_str s +:+ rest)).
    by f_equal.
Qed.

Lemma inserted_same_names (vals vals' : list string) :
  (forall c, c ∈ NodeCategorySet.c_str <$> vals <->
             c ∈ NodeCategorySet.c_str <$> vals') ->
  foldl (fun s v => Std.set_insert (NodeCategorySet.c_str v) s) [] vals =
  foldl (fun s v => Std.set_insert (NodeCategorySet.c_str v) s) [] vals'.
Proof.
  intros Hsame.
  apply sorted_ext; try (apply inserted_sorted; constructor).
  intros c. rewrite !elem_of_inserted, !elem_of_nil.
  specialize (Hsame c). tauto.
Qed.

Lemma c_str_c_str (s : string) :
  NodeCategorySet.c_str (NodeCategorySet.c_str s) = NodeCategorySet.c_str s.
Proof. apply c_str_id, c_str_no_nul. Qed.

(** X1.  [New] with an array whose elements all convert, in an
    environment that has a writer handle, makes a category set that is
    not enabled and whose categories are the names of the array, each
    once, in increasing order; nothing else in the store changes and the
    agent is not called. *)
Theorem New_builds_a_sorted_set (env : Environment) (this writer : ptr)
    (vals : list string) (w : World) :
  tracing_agent_writer env = Some writer ->
  exists categories,
    NodeCategorySet.New env this (Some <$> vals) w =
      Some (tt, {| agents := agents w;
                   handles := handles w;
                   category_sets :=
                     <[this := {| enabled_ := false;
                                  set_categories_ := categories |}]>
                       (category_sets w);
                   calls := calls w |}) /\
    StronglySorted string_lt categories /\
    NoDup categories /\
    forall c, c ∈ categories <-> c ∈ NodeCategorySet.c_str <$> vals.
Proof.
  intros Henv. eexists. unfold NodeCategorySet.New.
  rewrite New_loop_Some, Henv. split; [reflexivity|].
  assert (Hsorted : StronglySorted string_lt
            (foldl (fun s v => Std.set_insert (NodeCategorySet.c_str v) s)
               [] vals)) by (apply inserted_sorted; constructor).
  split; [exact Hsorted|]. split; [by apply sorted_NoDup|].
  intros c. rewrite elem_of_inserted, elem_of_nil. tauto.
Qed.

(** X2.  What [New] makes depends on the names in the array only, not on
    their order or on how often each occurs: two arrays with the same
    names give the same result, be it a set or none. *)
Theorem New_depends_on_names_only (env : Environment) (this : ptr)
    (vals vals' : list string) (w : World) :
  (forall c, c ∈ NodeCategorySet.c_str <$> vals <->
             c ∈ NodeCategorySet.c_str <$> vals') ->
  NodeCategorySet.New env this (Some <$> vals) w =
    NodeCategorySet.New env this (Some <$> vals') w.
Proof.
  intros Hsame. unfold NodeCategorySet.New. rewrite !New_loop_Some.
  by rewrite (inserted_same_names vals vals').
Qed.

(** X3.  [New] cuts every name at its first NUL character: no category of
    the set has a NUL in it, each is the beginning of an element of the
    array and the whole of it when that element has no NUL, and an array
    gives the same result as the array of its cut names. *)
Theorem New_cuts_names_at_NUL (env : Environment) (this : ptr)
    (vals : list string) (w : World) :
  NodeCategorySet.New env this (Some <$> vals) w =
    NodeCategorySet.New env this
      (Some <$> (NodeCategorySet.c_str <$> vals)) w /\
  forall categories,
    NodeCategorySet.New_loop (Some <$> vals) [] = Some categories ->
    forall c, c ∈ categories ->
      has_nul c = false /\
      exists v rest,
        v ∈ vals /\ v = c +:+ rest /\ (has_nul v = false -> c = v).
Proof.
  split.
  - unfold NodeCategorySet.New. rewrite !New_loop_Some.
    rewrite (inserted_same_names vals (NodeCategorySet.c_str <$> vals));
      [done|].
    intros c. rewrite <- list_fmap_compose.
    rewrite !list_elem_of_fmap. split.
    + intros (v & -> & Hv). exists v. split; [|done].
      simpl. by rewrite c_str_c_str.
    + intros (v & -> & Hv). exists v. split; [|done].
      simpl. by rewrite c_str_c_str.
  - intros categories Hloop c Hc.
    rewrite New_loop_Some in Hloop. injection Hloop as <-.
    apply elem_of_inserted in Hc as [Hc|Hc]; [by apply elem_of_nil in Hc|].
    apply list_elem_of_fmap in Hc as (v & -> & Hv).
    split; [apply c_str_no_nul|].
    destruct (c_str_prefix v) as [rest Hrest].
    exists v, rest. split; [done|]. split; [done|]. apply c_str_id.
Qed.


Lemma New_builds_a_sorted_set_witness :
  tracing_agent_writer example_env = Some 5%positive /\
  exists categories,
    NodeCategorySet.New example_env 32%positive
      (Some <$> ["v8"; "node"; "v8"]) example_binding =
      Some (tt, {| agents := agents example_binding;
                   handles := handles example_binding;
                   category_sets :=
                     <[32%positive := {| enabled_ := false;
                                         set_categories_ := categories |}]>
                       (category_sets example_binding);
                   calls := calls example_binding |}) /\
    StronglySorted string_lt categories /\
    NoDup categories /\
    forall c, c ∈ categories <->
              c ∈ NodeCategorySet.c_str <$> ["v8"; "node"; "v8"].
Proof.
  split; [reflexivity|].
  apply (New_builds_a_sorted_set example_env 32%positive 5%positive
           ["v8"; "node"; "v8"] example_binding).
  reflexivity.
Defined.

Lemma New_depends_on_names_only_witness :
  (forall c, c ∈ NodeCategorySet.c_str <$> ["v8"; "node"; "v8"] <->
             c ∈ NodeCategorySet.c_str <$> ["node"; "v8"]) /\
  NodeCategorySet.New example_env 32%positive
    (Some <$> ["v8"; "node"; "v8"]) example_binding =
  NodeCategorySet.New example_env 32%positive
    (Some <$> ["node"; "v8"]) example_binding.
Proof.
  assert (Hsame : forall c,
            c ∈ NodeCategorySet.c_str <$> ["v8"; "node"; "v8"] <->
            c ∈ NodeCategorySet.c_str <$> ["node"; "v8"]).
  { intros c. simpl. rewrite !elem_of_cons. tauto. }
  split; [exact Hsame|].
  exact (New_depends_on_names_only example_env 32%positive
           ["v8"; "node"; "v8"] ["node"; "v8"] example_binding Hsame).
Defined.

Lemma New_cuts_names_at_NUL_witness :
  NodeCategorySet.New_loop
    (Some <$> [String "v" (String "8" (String Ascii.zero "x")); "node"]) [] =
    Some ["node"; "v8"] /\
  "v8" ∈ ["node"; "v8"] /\
  has_nul "v8" = false /\
  exists v rest,
    v ∈ [String "v" (String "8" (String Ascii.zero "x")); "node"] /\
    v = "v8" +:+ rest /\ (has_nul v = false -> "v8" = v).
Proof.
  assert (Hloop : NodeCategorySet.New_loop
            (Some <$> [String "v" (String "8" (String Ascii.zero "x"));
                       "node"]) [] = Some ["node"; "v8"]) by reflexivity.
  assert (Hin : "v8" ∈ ["node"; "v8"])
    by (apply list_elem_of_further, list_elem_of_here).
  split; [exact Hloop|]. split; [exact Hin|].
  exact (proj2 (New_cuts_names_at_NUL example_env 32%positive
                  [String "v" (String "8" (String Ascii.zero "x")); "node"]
                  example_binding)
           ["node"; "v8"] Hloop "v8" Hin).
Defined.


(** ** The resolution of the clock *)

Lemma timestamp_in_range (t : Z) :
  0 <= t <= UINT64_MAX ->
  TracingController.CurrentTimestampMicroseconds t = t / 1000.
Proof.
  intros Ht.
  unfold TracingController.CurrentTimestampMicroseconds, to_int64,
    UINT64_MAX in *.
  rewrite Z.quot_div_nonneg by lia.
  assert (0 <= t / 1000 < 2 ^ 63).
  { split; [apply Z.div_pos; lia|]. apply Z.div_lt_upper_bound; lia. }
  rewrite Z.mod_small by lia. lia.
Qed.

(** X5.  What the division in [CurrentTimestampMicroseconds] does to
    elapsed time.  The difference of two timestamps is the number of whole
    microseconds between the two clock readings or one more; readings that
    are a microsecond or more apart get different timestamps; and all the
    readings of one microsecond, [1000 * k] to [1000 * k + 999], get the
    timestamp [k]. *)
Theorem timestamp_resolution (earlier later : Z) :
  0 <= earlier <= later ->
  later <= UINT64_MAX ->
  (later - earlier) / 1000
    <= TracingController.CurrentTimestampMicroseconds later
       - TracingController.CurrentTimestampMicroseconds earlier
    <= (later - earlier) / 1000 + 1 /\
  (1000 <= later - earlier ->
   TracingController.CurrentTimestampMicroseconds earlier
     < TracingController.CurrentTimestampMicroseconds later) /\
  (forall k r,
     0 <= r < 1000 -> earlier = 1000 * k + r ->
     TracingController.CurrentTimestampMicroseconds earlier = k).
Proof.
  intros Hearlier Hlater.
  rewrite !timestamp_in_range by lia.
  pose proof (Z.div_mod earlier 1000 ltac:(lia)) as He.
  pose proof (Z.mod_pos_bound earlier 1000 ltac:(lia)) as Hre.
  pose proof (Z.div_mod later 1000 ltac:(lia)) as Hl.
  pose proof (Z.mod_pos_bound later 1000 ltac:(lia)) as Hrl.
  pose proof (Z.div_mod (later - earlier) 1000 ltac:(lia)) as Hd.
  pose proof (Z.mod_pos_bound (later - earlier) 1000 ltac:(lia)) as Hrd.
  split; [lia|]. split; [lia|].
  intros k r Hr Hkr. lia.
Qed.

Lemma timestamp_resolution_witness :
  (1999 - 1000) / 1000
    <= TracingController.CurrentTimestampMicroseconds 1999
       - TracingController.CurrentTimestampMicroseconds 1000
    <= (1999 - 1000) / 1000 + 1 /\
  TracingController.CurrentTimestampMicroseconds 1999
    < TracingController.CurrentTimestampMicroseconds 3000 /\
  TracingController.CurrentTimestampMicroseconds 1999 = 1.
Proof.
  split; [|split].
  - exact (proj1 (timestamp_resolution 1000 1999
                    ltac:(lia) ltac:(vm_compute; discriminate))).
  - exact (proj1 (proj2 (timestamp_resolution 1999 3000
                           ltac:(lia) ltac:(vm_compute; discriminate)))
             ltac:(lia)).
  - exact (proj2 (proj2 (timestamp_resolution 1999 1999
                           ltac:(lia) ltac:(vm_compute; discriminate)))
             1 999 ltac:(lia) ltac:(lia)).
Defined.

(** ** Counting the entries of a store *)

Section Counting.
Context {A : Type} (P : A -> bool).

Lemma size_filter_fresh (m : gmap ptr A) (k : ptr) (v : A) :
  m !! k = None ->
  size (filter (fun kv : ptr * A => P kv.2 = true) (<[k := v]> m)) =
    (size (filter (fun kv : ptr * A => P kv.2 = true) m)
     + if P v then 1 else 0)%nat.
Proof.
  intros Hk. destruct (P v) eqn:Hv.
  - rewrite map_filter_insert_True by done.
    rewrite map_size_insert_None; [lia|].
    apply map_lookup_filter_None. by left.
  - rewrite map_filter_insert_False by (simpl; congruence).
    rewrite delete_id by done. lia.
Qed.

Lemma size_filter_delete (m : gmap ptr A) (k : ptr) (old : A) :
  m !! k = Some old ->
  (size (filter (fun kv : ptr * A => P kv.2 = true) (delete k m))
   + if P old then 1 else 0)%nat =
    size (filter (fun kv : ptr * A => P kv.2 = true) m).
Proof.
  intros Hk. rewrite <- (insert_delete_id m k old Hk) at 2.
  rewrite size_filter_fresh by apply lookup_delete_eq. done.
Qed.

Lemma size_filter_insert (m : gmap ptr A) (k : ptr) (old v : A) :
  m !! k = Some old ->
  (size (filter (fun kv : ptr * A => P kv.2 = true) (<[k := v]> m))
   + if P old then 1 else 0)%nat =
    (size (filter (fun kv : ptr * A => P kv.2 = true) m)
     + if P v then 1 else 0)%nat.
Proof.
  intros Hk. rewrite <- (insert_delete_eq m k v).
  rewrite size_filter_fresh by apply lookup_delete_eq.
  pose proof (size_filter_delete m k old Hk). lia.
Qed.

End Counting.

(** ** Handles, one operation after the other *)

Ltac lookups :=
  repeat first
    [ rewrite lookup_insert_eq
    | rewrite lookup_delete_eq
    | (rewrite lookup_insert_ne by congruence)
    | (rewrite lookup_delete_ne by congruence) ].

Section HandleSequences.
Context `{AgentMethods}.

Lemma after_reset_agents (w : World) (this : ptr) (h : AgentWriterHandle)
    (agent : ptr) :
  is_Some (agents (after_reset w this h) !! agent) <->
  is_Some (agents w !! agent).
Proof.
  unfold after_reset. simpl.
  destruct (agent_ h) as [ag|]; [|done].
  destruct (agents w !! ag) as [a|] eqn:Ha; [|done].
  destruct (decide (agent = ag)) as [->|Hne].
  - rewrite lookup_insert_eq, Ha. split; intros _; by eexists.
  - by rewrite lookup_insert_ne.
Qed.

Lemma destructor_eq (w : World) (this : ptr) (h : AgentWriterHandle) :
  handles w !! this = Some h -> agent_alive w h ->
  AgentWriterHandle.destructor this w =
    Some (tt, {| agents := agents (after_reset w this h);
                 handles := delete this (handles w);
                 category_sets := category_sets w;
                 calls := calls w ++ disconnect_of h |}).
Proof.
  intros Hh Hlive. unfold AgentWriterHandle.destructor.
  step_with (reset_eq w this h Hh Hlive).
  unfold Store.release. simpl. rewrite lookup_insert_eq.
  by rewrite delete_insert_eq.
Qed.

Lemma operator_assign_into_empty (w : World) (this other : ptr)
    (hd hs : AgentWriterHandle) :
  handles w !! this = Some hd -> agent_ hd = None ->
  handles w !! other = Some hs ->
  AgentWriterHandle.operator_assign this other w =
    Some (this,
          {| agents := agents w;
             handles :=
               <[other := {| agent_ := None; id_ := id_ hs |}]>
                 (<[this := {| agent_ := agent_ hs; id_ := id_ hs |}]>
                    (handles w));
             category_sets := category_sets w;
             calls := calls w |}).
Proof.
  intros Hd Hempty Hs.
  assert (Hlive : agent_alive w hd) by (intros agent Hag; congruence).
  destruct (decide (this = other)) as [->|Hne].
  - rewrite (operator_assign_self w other hd Hd Hlive).
    assert (hs = hd) by congruence. subst hs.
    do 2 f_equal. unfold after_reset, disconnect_of. rewrite Hempty.
    apply World_eq; simpl; try done.
    + by rewrite insert_insert_eq.
    + by rewrite app_nil_r.
  - rewrite (operator_assign_distinct w this other hd hs Hne Hd Hs Hlive).
    do 2 f_equal. unfold after_reset, disconnect_of. rewrite Hempty.
    apply World_eq; simpl; try done. by rewrite app_nil_r.
Qed.

(** X6.  Two handles exchanged by three moves through a temporary, as
    [std::swap] does it.  The two handles swap what they hold, the
    temporary is gone, and the agent is not called: no registration is
    lost, wherever the handles point, and also when the two are one and
    the same handle, which a single move assignment to itself would
    disconnect. *)
Theorem exchange_swaps (a b tmp : ptr) (indeterminate : Z) (w : World)
    (ha hb : AgentWriterHandle) :
  handles w !! tmp = None ->
  handles w !! a = Some ha ->
  handles w !! b = Some hb ->
  exchange a b tmp indeterminate w =
    Some (tt, {| agents := agents w;
                 handles := <[a := hb]> (<[b := ha]> (handles w));
                 category_sets := category_sets w;
                 calls := calls w |}).
Proof.
  intros Htmp Ha Hb.
  assert (Hta : tmp <> a) by congruence.
  assert (Htb : tmp <> b) by congruence.
  unfold exchange.
  step_with (move_constructor_eq w tmp a ha indeterminate Htmp Ha).
  match goal with |- bind _ _ ?w1 = _ =>
    assert (Hb1 : exists hb1,
              handles w1 !! b = Some hb1 /\
              hb1 = (if decide (a = b)
                     then {| agent_ := None; id_ := id_ ha |} else hb))
  end.
  { simpl. case_decide; [subst b|]; lookups; by eexists. }
  destruct Hb1 as (hb1 & Hb1 & Hhb1).
  erewrite bind_Some; cycle 1.
  { apply (operator_assign_into_empty _ a b
             {| agent_ := None; id_ := id_ ha |} hb1);
      [simpl; by lookups | done | exact Hb1]. }
  erewrite bind_Some; cycle 1.
  { apply (operator_assign_into_empty _ b tmp
             {| agent_ := None; id_ := id_ hb1 |}
             {| agent_ := agent_ ha; id_ := id_ ha |});
      [simpl; by lookups | done | simpl; by lookups]. }
  rewrite (destructor_empty _ tmp {| agent_ := None; id_ := id_ ha |});
    [|simpl; by lookups|done].
  do 2 f_equal. apply World_eq; simpl; try done.
  apply map_eq. intros p.
  destruct ha as [aa ia], hb as [ab ib].
  destruct (decide (p = tmp)) as [->|Hpt]; [lookups; by rewrite Htmp|].
  destruct (decide (p = a)) as [->|Hpa].
  - case_decide; [subst b|]; subst hb1; lookups; simpl; congruence.
  - destruct (decide (p = b)) as [->|Hpb]; by lookups.
Qed.

Lemma all_alive_after (w w' : World) :
  all_alive w ->
  (forall agent, is_Some (agents w !! agent) -> is_Some (agents w' !! agent)) ->
  (forall this h', handles w' !! this = Some h' ->
     agent_ h' = None \/
     exists other h, handles w !! other = Some h /\ agent_ h = agent_ h') ->
  all_alive w'.
Proof.
  intros Hlive Hagents Hhandles this h' Hh' agent Hag.
  destruct (Hhandles this h' Hh') as [Hnone|(other & h & Hh & Heq)];
    [congruence|].
  apply Hagents. apply (Hlive other h Hh). congruence.
Qed.

Lemma destructor_keeps_alive (w : World) (this : ptr) (h : AgentWriterHandle) :
  all_alive w ->
  all_alive {| agents := agents (after_reset w this h);
               handles := delete this (handles w);
               category_sets := category_sets w;
               calls := calls w ++ disconnect_of h |}.
Proof.
  intros Hlive. apply (all_alive_after w); [done| |].
  - intros agent Ha. by apply after_reset_agents.
  - simpl. intros p h' Hp. right. exists p, h'.
    apply lookup_delete_Some in Hp as [_ Hp]. done.
Qed.

(** X7.  Handles destroyed one after the other.  Each handle that holds a
    registration gives one [Disconnect] of its id to its agent, in the
    order of destruction, and an empty handle gives none; the destroyed
    handles are gone, the other handles are as they were, and no category
    set changes. *)
Theorem destroy_all_disconnects (l : list ptr) (w : World) :
  NoDup l ->
  all_alive w ->
  (forall this, this ∈ l -> is_Some (handles w !! this)) ->
  exists w',
    destroy_all l w = Some (tt, w') /\
    calls w' = calls w ++ concat (disconnect_at w <$> l) /\
    (forall this, this ∈ l -> handles w' !! this = None) /\
    (forall this, this ∉ l -> handles w' !! this = handles w !! this) /\
    category_sets w' = category_sets w /\
    all_alive w'.
Proof.
  intros Hnd. revert w.
  induction Hnd as [|this l Hthis Hnd IH]; intros w Hlive Hthere.
  - exists w. simpl. rewrite app_nil_r. repeat split; try done.
    intros this Hin. by apply elem_of_nil in Hin.
  - destruct (Hthere this (list_elem_of_here _ _)) as [h Hh].
    cbn [destroy_all].
    step_with (destructor_eq w this h Hh (Hlive this h Hh)).
    match goal with |- context [destroy_all l ?w1] =>
      destruct (IH w1) as (w' & Hrun & Hcalls & Hgone & Hkept & Hsets & Hlive')
    end.
    { by apply destructor_keeps_alive. }
    { intros p Hp. simpl. rewrite lookup_delete_ne by set_solver.
      apply Hthere. by apply list_elem_of_further. }
    exists w'. split; [exact Hrun|]. simpl in *.
    split; [|split; [|split; [|split]]]; try done.
    + rewrite Hcalls, <- app_assoc. f_equal.
      unfold disconnect_at at 2. rewrite Hh. f_equal. f_equal.
      apply Forall_fmap_ext_1, Forall_forall. intros p Hp.
      unfold disconnect_at. simpl.
      rewrite lookup_delete_ne by set_solver. done.
    + intros p Hp. apply elem_of_cons in Hp as [->|Hp]; [|by apply Hgone].
      rewrite Hkept by done. apply lookup_delete_eq.
    + intros p Hp. apply not_elem_of_cons in Hp as [Hne Hp].
      rewrite Hkept by done. by rewrite lookup_delete_ne.
Qed.

Lemma move_chain_eq (source : ptr) (destinations : list ptr)
    (indeterminate : Z) (w : World) (hs : AgentWriterHandle) :
  handles w !! source = Some hs ->
  NoDup destinations ->
  (forall d, d ∈ destinations -> handles w !! d = None) ->
  exists w',
    move_chain source destinations indeterminate w =
      Some (default source (last destinations), w') /\
    agents w' = agents w /\
    calls w' = calls w /\
    category_sets w' = category_sets w /\
    handles w' !! default source (last destinations) = Some hs /\
    (forall p, p ∈ source :: destinations ->
       p <> default source (last destinations) ->
       handles w' !! p = Some {| agent_ := None; id_ := id_ hs |}) /\
    (forall p, p ∉ source :: destinations ->
       handles w' !! p = handles w !! p).
Proof.
  intros Hs Hnd. revert source w hs Hs.
  induction Hnd as [|d ds Hd Hnd IH]; intros source w hs Hs Hfresh.
  - exists w. simpl. repeat split; try done.
    intros p Hp Hne. apply list_elem_of_singleton in Hp. done.
  - assert (Hdnew : handles w !! d = None)
      by apply Hfresh, list_elem_of_here.
    assert (Hds : d <> source) by congruence.
    cbn [move_chain].
    step_with (move_constructor_eq w d source hs indeterminate Hdnew Hs).
    match goal with |- context [move_chain d ds indeterminate ?w1] =>
      destruct (IH d w1 {| agent_ := agent_ hs; id_ := id_ hs |})
        as (w' & Hrun & Hagents & Hcalls & Hsets & Howner & Hleft & Hkept)
    end.
    { simpl. by lookups. }
    { intros p Hp. simpl.
      assert (p <> d) by set_solver.
      assert (handles w !! p = None)
        by (apply Hfresh; by apply list_elem_of_further).
      by lookups. }
    assert (Hlast : default source (last (d :: ds)) = default d (last ds)).
    { rewrite last_cons. by destruct (last ds). }
    exists w'. rewrite Hlast. simpl in *.
    split; [exact Hrun|]. split; [done|]. split; [done|]. split; [done|].
    split; [by destruct hs|]. split.
    + intros p Hp Hne. apply elem_of_cons in Hp as [->|Hp].
      * rewrite Hkept; [by lookups|].
        apply not_elem_of_cons. split; [done|].
        intros Hin.
        assert (handles w !! source = None)
          by (apply Hfresh; by apply list_elem_of_further).
        congruence.
      * by apply Hleft.
    + intros p Hp. apply not_elem_of_cons in Hp as [Hne Hp].
      rewrite Hkept by done.
      apply not_elem_of_cons in Hp as [Hne' Hp]. by lookups.
Qed.

(** X8.  A registration handed on through a chain of move constructions.
    The agent is not called and does not change; the last handle of the
    chain holds what the first one held, every handle before it is left
    empty, and the other handles of the store are as they were. *)
Theorem move_chain_hands_on (source : ptr) (destinations : list ptr)
    (indeterminate : Z) (w : World) (hs : AgentWriterHandle) :
  handles w !! source = Some hs ->
  NoDup destinations ->
  (forall d, d ∈ destinations -> handles w !! d = None) ->
  exists w',
    move_chain source destinations indeterminate w =
      Some (default source (last destinations), w') /\
    agents w' = agents w /\
    calls w' = calls w /\
    category_sets w' = category_sets w /\
    handles w' !! default source (last destinations) = Some hs /\
    (forall p, p ∈ source :: destinations ->
       p <> default source (last destinations) ->
       handles w' !! p = Some {| agent_ := None; id_ := id_ hs |}) /\
    (forall p, p ∉ source :: destinations ->
       handles w' !! p = handles w !! p).
Proof. apply move_chain_eq. Qed.

Lemma disconnects_app (agent : ptr) (id : Z) (l1 l2 : list AgentCall) :
  disconnects agent id (l1 ++ l2) =
    (disconnects agent id l1 + disconnects agent id l2)%nat.
Proof.
  induction l1 as [|c l1 IH]; [done|].
  destruct c; simpl; rewrite IH; lia.
Qed.

Lemma disconnects_disconnect_of (agent : ptr) (id : Z)
    (h : AgentWriterHandle) :
  disconnects agent id (disconnect_of h) =
    if bound_to agent id h then 1%nat else 0%nat.
Proof.
  destruct h as [[a|] i]; unfold disconnect_of, bound_to; simpl; [|done].
  repeat case_bool_decide; simplify_eq; done.
Qed.

Lemma disconnects_op_calls (agent : ptr) (id : Z) (op : NodeCategorySet.SetOp)
    (h : AgentWriterHandle) (categories : list string) :
  disconnects agent id (op_calls op h categories) = 0%nat.
Proof.
  destruct op, h as [[a|] i]; done.
Qed.

Lemma conserves_refl (w : World) : conserves w w.
Proof.
  split; [|done]. exists []. rewrite app_nil_r. split; [done|].
  intros agent id. simpl. lia.
Qed.

Lemma conserves_trans (w1 w2 w3 : World) :
  conserves w1 w2 -> conserves w2 w3 -> conserves w1 w3.
Proof.
  intros ((l1 & Hc1 & Hn1) & Hs1 & Ha1) ((l2 & Hc2 & Hn2) & Hs2 & Ha2).
  split; [|split].
  - exists (l1 ++ l2). split; [by rewrite Hc2, Hc1, app_assoc|].
    intros agent id. rewrite disconnects_app.
    specialize (Hn1 agent id). specialize (Hn2 agent id). lia.
  - congruence.
  - intros agent. by rewrite Ha2.
Qed.

Lemma after_reset_conserves (w : World) (this : ptr) (h : AgentWriterHandle) :
  handles w !! this = Some h ->
  conserves w (after_reset w this h).
Proof.
  intros Hh. split; [|split].
  - exists (disconnect_of h). split; [done|]. intros agent id.
    rewrite disconnects_disconnect_of. unfold holders. simpl.
    pose proof (size_filter_insert (bound_to agent id) (handles w) this h
                  {| agent_ := None; id_ := id_ h |} Hh) as Hsize.
    change (bound_to agent id {| agent_ := None; id_ := id_ h |})
      with false in Hsize.
    cbv iota in *. lia.
  - done.
  - intros agent. apply after_reset_agents.
Qed.

Lemma after_reset_alive (w : World) (this : ptr) (h : AgentWriterHandle) :
  handles w !! this = Some h ->
  all_alive w -> all_alive (after_reset w this h).
Proof.
  intros Hh Hlive. apply (all_alive_after w); [done| |].
  - intros agent Ha. by apply after_reset_agents.
  - simpl. intros p h' Hp.
    destruct (decide (p = this)) as [->|Hne].
    + rewrite lookup_insert_eq in Hp. injection Hp as <-. by left.
    + rewrite lookup_insert_ne in Hp by done. right. by exists p, h'.
Qed.

Lemma moved_alive (w : World) (this other : ptr) (hs : AgentWriterHandle)
    (agents' : gmap ptr Agent) (calls' : list AgentCall) :
  handles w !! other = Some hs ->
  (forall agent, is_Some (agents w !! agent) -> is_Some (agents' !! agent)) ->
  all_alive w ->
  all_alive {| agents := agents';
               handles :=
                 <[other := {| agent_ := None; id_ := id_ hs |}]>
                   (<[this := {| agent_ := agent_ hs; id_ := id_ hs |}]>
                      (handles w));
               category_sets := category_sets w;
               calls := calls' |}.
Proof.
  intros Hs Hagents Hlive. apply (all_alive_after w); [done|done|].
  simpl. intros p h' Hp.
  destruct (decide (p = other)) as [->|Hpo].
  - rewrite lookup_insert_eq in Hp. injection Hp as <-. by left.
  - rewrite lookup_insert_ne in Hp by done.
    destruct (decide (p = this)) as [->|Hpt].
    + rewrite lookup_insert_eq in Hp. injection Hp as <-.
      right. by exists other, hs.
    + rewrite lookup_insert_ne in Hp by done. right. by exists p, h'.
Qed.

Lemma handle_step_conserves (op : HandleOp) (w : World) :
  all_alive w ->
  op_fits (dom (handles w)) op = true ->
  exists w',
    handle_step op w = Some (tt, w') /\
    dom (handles w') = live_after (dom (handles w)) op /\
    all_alive w' /\
    conserves w w'.
Proof.
  intros Hlive Hfits. destruct op as
    [this i|this other i|this other|this|this|this cats|this cats];
    simpl in Hfits.
  - (* default construction *)
    apply bool_decide_eq_true, not_elem_of_dom in Hfits.
    eexists. split; [apply construct_eq; done|]. simpl.
    split; [by rewrite dom_insert_L|]. split; [|split; [|done]].
    + apply (all_alive_after w); [done|done|]. simpl. intros p h' Hp.
      destruct (decide (p = this)) as [->|Hne].
      * rewrite lookup_insert_eq in Hp. injection Hp as <-. by left.
      * rewrite lookup_insert_ne in Hp by done. right. by exists p, h'.
    + exists []. rewrite app_nil_r. split; [done|]. intros agent id.
      unfold holders. simpl. rewrite size_filter_fresh by done.
      change (bound_to agent id {| agent_ := None; id_ := i |}) with false.
      cbv iota in *. lia.
  - (* move construction *)
    apply andb_prop in Hfits as [Hnew Hs].
    apply bool_decide_eq_true, not_elem_of_dom in Hnew.
    apply bool_decide_eq_true, elem_of_dom in Hs as [hs Hs].
    assert (Hne : this <> other) by congruence.
    eexists. split; [by apply move_constructor_eq|]. simpl.
    split; [|split; [by apply moved_alive|split; [|done]]].
    + rewrite dom_insert_lookup_L; [by rewrite dom_insert_L|].
      rewrite lookup_insert_ne by done. by eexists.
    + exists []. rewrite app_nil_r. split; [done|]. intros agent id.
      unfold holders. simpl.
      pose proof (size_filter_insert (bound_to agent id)
                    (<[this := {| agent_ := agent_ hs; id_ := id_ hs |}]>
                       (handles w))
                    other hs {| agent_ := None; id_ := id_ hs |}) as Hsize.
      rewrite lookup_insert_ne in Hsize by done. specialize (Hsize Hs).
      rewrite (size_filter_fresh (bound_to agent id) (handles w) this _ Hnew)
        in Hsize.
      change (bound_to agent id {| agent_ := None; id_ := id_ hs |})
        with false in Hsize.
      change (bound_to agent id {| agent_ := agent_ hs; id_ := id_ hs |})
        with (bound_to agent id hs) in Hsize.
      cbv iota in *. lia.
  - (* move assignment *)
    apply andb_prop in Hfits as [Hd Hs].
    apply bool_decide_eq_true, elem_of_dom in Hd as [hd Hd].
    apply bool_decide_eq_true, elem_of_dom in Hs as [hs Hs].
    destruct (decide (this = other)) as [->|Hne].
    + eexists. split.
      { cbn [handle_step].
        step_with (operator_assign_self w other hd Hd (Hlive other hd Hd)).
        reflexivity. }
      split; [simpl; rewrite dom_insert_lookup_L; [done | by eexists]|].
      split; [by apply after_reset_alive | by apply after_reset_conserves].
    + eexists. split.
      { cbn [handle_step].
        step_with (operator_assign_distinct w this other hd hs Hne Hd Hs
                     (Hlive this hd Hd)).
        reflexivity. }
      simpl. split; [|split; [|split; [|split]]].
      * rewrite dom_insert_lookup_L;
          [rewrite dom_insert_lookup_L; [done | by eexists]|].
        rewrite lookup_insert_ne by done. by eexists.
      * apply moved_alive; [done| |done].
        intros agent Ha. by apply (after_reset_agents w this hd).
      * exists (disconnect_of hd). split; [done|]. intros agent id.
        rewrite disconnects_disconnect_of. unfold holders. simpl.
        pose proof (size_filter_insert (bound_to agent id)
                      (<[this := {| agent_ := agent_ hs; id_ := id_ hs |}]>
                         (handles w))
                      other hs {| agent_ := None; id_ := id_ hs |}) as Hsize.
        rewrite lookup_insert_ne in Hsize by done. specialize (Hsize Hs).
        pose proof (size_filter_insert (bound_to agent id) (handles w) this hd
                      {| agent_ := agent_ hs; id_ := id_ hs |} Hd) as Hsize'.
        change (bound_to agent id {| agent_ := None; id_ := id_ hs |})
          with false in Hsize.
        change (bound_to agent id {| agent_ := agent_ hs; id_ := id_ hs |})
          with (bound_to agent id hs) in Hsize'.
        cbv iota in *. lia.
      * done.
      * intros agent. apply (after_reset_agents w this hd).
  - (* reset *)
    apply bool_decide_eq_true, elem_of_dom in Hfits as [h Hh].
    eexists. split; [apply (reset_eq w this h Hh (Hlive this h Hh))|].
    split; [simpl; rewrite dom_insert_lookup_L; [done | by eexists]|].
    split; [by apply after_reset_alive | by apply after_reset_conserves].
  - (* destruction *)
    apply bool_decide_eq_true, elem_of_dom in Hfits as [h Hh].
    eexists. split; [apply (destructor_eq w this h Hh (Hlive this h Hh))|].
    simpl. split; [by rewrite dom_delete_L|].
    split; [by apply destructor_keeps_alive|]. split; [|split].
    + exists (disconnect_of h). split; [done|]. intros agent id.
      rewrite disconnects_disconnect_of. unfold holders. simpl.
      pose proof (size_filter_delete (bound_to agent id) (handles w) this h
                    Hh). lia.
    + done.
    + intros agent. apply (after_reset_agents w this h).
  - (* Enable *)
    apply bool_decide_eq_true, elem_of_dom in Hfits as [h Hh].
    eexists. split.
    { apply (handle_call_eq w this h NodeCategorySet.SetEnable cats Hh
               (Hlive this h Hh)). }
    simpl. split; [done|].
    assert (Hdom : forall agent,
              is_Some (match agent_ h with
                       | Some ag =>
                           match agents w !! ag with
                           | Some a =>
                               <[ag := Agent_Enable (id_ h) cats a]> (agents w)
                           | None => agents w
                           end
                       | None => agents w
                       end !! agent) <-> is_Some (agents w !! agent)).
    { intros agent. destruct (agent_ h) as [ag|]; [|done].
      destruct (agents w !! ag) as [a|] eqn:Ha; [|done].
      destruct (decide (agent = ag)) as [->|Hne].
      - rewrite lookup_insert_eq, Ha. split; intros _; by eexists.
      - by rewrite lookup_insert_ne. }
    split; [|split; [|split; [done|exact Hdom]]].
    + apply (all_alive_after w); [done| |].
      * intros agent Ha. by apply Hdom.
      * simpl. intros p h' Hp. right. by exists p, h'.
    + eexists. split; [done|]. intros agent id.
      rewrite (disconnects_op_calls agent id NodeCategorySet.SetEnable).
      unfold holders. simpl. lia.
  - (* Disable *)
    apply bool_decide_eq_true, elem_of_dom in Hfits as [h Hh].
    eexists. split.
    { apply (handle_call_eq w this h NodeCategorySet.SetDisable cats Hh
               (Hlive this h Hh)). }
    simpl. split; [done|].
    assert (Hdom : forall agent,
              is_Some (match agent_ h with
                       | Some ag =>
                           match agents w !! ag with
                           | Some a =>
                               <[ag := Agent_Disable (id_ h) cats a]> (agents w)
                           | None => agents w
                           end
                       | None => agents w
                       end !! agent) <-> is_Some (agents w !! agent)).
    { intros agent. destruct (agent_ h) as [ag|]; [|done].
      destruct (agents w !! ag) as [a|] eqn:Ha; [|done].
      destruct (decide (agent = ag)) as [->|Hne].
      - rewrite lookup_insert_eq, Ha. split; intros _; by eexists.
      - by rewrite lookup_insert_ne. }
    split; [|split; [|split; [done|exact Hdom]]].
    + apply (all_alive_after w); [done| |].
      * intros agent Ha. by apply Hdom.
      * simpl. intros p h' Hp. right. by exists p, h'.
    + eexists. split; [done|]. intros agent id.
      rewrite (disconnects_op_calls agent id NodeCategorySet.SetDisable).
      unfold holders. simpl. lia.
Qed.

(** X9.  The books on registrations.  Handles are constructed empty,
    moved, assigned, reset, destroyed and used for [Enable] and [Disable],
    in any order, each operation on handles that are there.  Every
    operation has a result, and for every id of every agent the handles
    that hold it at the end and the [Disconnect] calls made for it on the
    way add up to the handles that held it at the start.  So no operation
    makes a handle hold an id that no handle held, and an id is not
    disconnected more often than handles held it.  No category set
    changes and every handle still points to an agent that is there. *)
Theorem handles_keep_the_books (ops : list HandleOp) (w : World) :
  all_alive w ->
  ops_fit (dom (handles w)) ops = true ->
  exists w',
    handle_run ops w = Some (tt, w') /\
    dom (handles w') = foldl live_after (dom (handles w)) ops /\
    all_alive w' /\
    conserves w w' /\
    forall agent id, (holders w' agent id <= holders w agent id)%nat.
Proof.
  revert w. induction ops as [|op ops IH]; intros w Hlive Hfit.
  - exists w. split; [done|]. split; [done|]. split; [done|].
    split; [apply conserves_refl|]. intros agent id. lia.
  - simpl in Hfit. apply andb_prop in Hfit as [Hop Hfit].
    destruct (handle_step_conserves op w Hlive Hop)
      as (w1 & Hstep & Hdom1 & Hlive1 & Hcons1).
    rewrite <- Hdom1 in Hfit.
    destruct (IH w1 Hlive1 Hfit) as (w' & Hrun & Hdom & Hlive' & Hcons & _).
    exists w'. cbn [handle_run]. step_with Hstep.
    split; [exact Hrun|]. split; [by rewrite Hdom, Hdom1|].
    split; [done|].
    pose proof (conserves_trans w w1 w' Hcons1 Hcons) as Hall.
    split; [exact Hall|]. intros agent id.
    destruct Hall as ((l & _ & Hn) & _). specialize (Hn agent id). lia.
Qed.

End HandleSequences.

Lemma example_world_alive : all_alive example_world.
Proof.
  intros this h Hh agent Hag. unfold example_world in *. simpl in *.
  assert (agent = 1%positive) as ->.
  { repeat (apply lookup_insert_Some in Hh as [[_ <-]|[_ Hh]];
            [simpl in Hag; congruence|]).
    apply lookup_singleton_Some in Hh as [_ <-]. simpl in Hag. congruence. }
  by eexists.
Qed.

Lemma exchange_swaps_witness :
  handles example_world !! 8%positive = None /\
  exchange 5 6 8 0 example_world =
    Some (tt, {| agents := agents example_world;
                 handles :=
                   <[5%positive := {| agent_ := Some 1%positive; id_ := 2 |}]>
                     (<[6%positive :=
                          {| agent_ := Some 1%positive; id_ := 1 |}]>
                        (handles example_world));
                 category_sets := category_sets example_world;
                 calls := calls example_world |}) /\
  exchange 5 5 8 0 example_world =
    Some (tt, {| agents := agents example_world;
                 handles :=
                   <[5%positive := {| agent_ := Some 1%positive; id_ := 1 |}]>
                     (<[5%positive :=
                          {| agent_ := Some 1%positive; id_ := 1 |}]>
                        (handles example_world));
                 category_sets := category_sets example_world;
                 calls := calls example_world |}).
Proof.
  split; [reflexivity|]. split.
  - apply (exchange_swaps 5 6 8 0 example_world); reflexivity.
  - apply (exchange_swaps 5 5 8 0 example_world); reflexivity.
Defined.

Lemma destroy_all_disconnects_witness :
  NoDup [6%positive; 7%positive; 5%positive] /\
  exists w',
    destroy_all [6%positive; 7%positive; 5%positive] example_world
      = Some (tt, w') /\
    calls w' = [CallDisconnect 1 2; CallDisconnect 1 1] /\
    handles w' !! 5%positive = None.
Proof.
  assert (Hnd : NoDup [6%positive; 7%positive; 5%positive]).
  { repeat (apply NoDup_cons; split;
            [rewrite ?not_elem_of_cons; repeat split;
             try discriminate; apply not_elem_of_nil|]).
    apply NoDup_nil_2. }
  split; [exact Hnd|].
  destruct (destroy_all_disconnects [6%positive; 7%positive; 5%positive]
              example_world Hnd example_world_alive)
    as (w' & Hrun & Hcalls & Hgone & _).
  { intros this Hin.
    repeat (apply elem_of_cons in Hin as [->|Hin]; [by eexists|]).
    by apply elem_of_nil in Hin. }
  exists w'. split; [exact Hrun|]. split; [exact Hcalls|].
  apply Hgone. do 2 apply list_elem_of_further. apply list_elem_of_here.
Defined.

Lemma move_chain_hands_on_witness :
  exists w',
    move_chain 5 [8%positive; 9%positive] 0 example_world
      = Some (9%positive, w') /\
    calls w' = [] /\
    handles w' !! 9%positive = Some {| agent_ := Some 1%positive; id_ := 1 |} /\
    handles w' !! 8%positive = Some {| agent_ := None; id_ := 1 |} /\
    handles w' !! 5%positive = Some {| agent_ := None; id_ := 1 |}.
Proof.
  destruct (move_chain_hands_on 5 [8%positive; 9%positive] 0 example_world
              {| agent_ := Some 1%positive; id_ := 1 |})
    as (w' & Hrun & _ & Hcalls & _ & Howner & Hleft & _).
  { reflexivity. }
  { repeat (apply NoDup_cons; split;
            [rewrite ?not_elem_of_cons; repeat split;
             try discriminate; apply not_elem_of_nil|]).
    apply NoDup_nil_2. }
  { intros d Hin.
    repeat (apply elem_of_cons in Hin as [->|Hin]; [reflexivity|]).
    by apply elem_of_nil in Hin. }
  exists w'. split; [exact Hrun|]. split; [exact Hcalls|].
  split; [exact Howner|]. split.
  - apply Hleft; [|discriminate].
    apply list_elem_of_further, list_elem_of_here.
  - apply Hleft; [|discriminate]. apply list_elem_of_here.
Defined.

Lemma handles_keep_the_books_witness :
  ops_fit (dom (handles example_world))
    [MoveConstruct 8 5 0; MoveAssign 6 6; HandleEnable 8 ["v8"];
     HandleDestroy 8; HandleReset 7; DefaultConstruct 9 0] = true /\
  exists w',
    handle_run
      [MoveConstruct 8 5 0; MoveAssign 6 6; HandleEnable 8 ["v8"];
       HandleDestroy 8; HandleReset 7; DefaultConstruct 9 0] example_world
      = Some (tt, w') /\
    conserves example_world w' /\
    forall agent id,
      (holders w' agent id <= holders example_world agent id)%nat.
Proof.
  assert (Hfit : ops_fit (dom (handles example_world))
            [MoveConstruct 8 5 0; MoveAssign 6 6; HandleEnable 8 ["v8"];
             HandleDestroy 8; HandleReset 7; DefaultConstruct 9 0] = true)
    by (vm_compute; reflexivity).
  split; [exact Hfit|].
  destruct (handles_keep_the_books _ example_world example_world_alive Hfit)
    as (w' & Hrun & _ & _ & Hcons & Hle).
  exists w'. split; [exact Hrun|]. split; [exact Hcons | exact Hle].
Defined.

(** ** The category sets of one environment *)

Section BindingSequences.
Context `{AgentMethods}.

Lemma alternating_guard (op : NodeCategorySet.SetOp) (s : NodeCategorySet)
    (agent : ptr) (id : Z) (l : list AgentCall) :
  op_guard op s = true ->
  alternating (negb (enabled_ (op_sets op s))) l = true ->
  alternating (negb (enabled_ s))
    (op_calls op {| agent_ := Some agent; id_ := id |} (set_categories_ s)
     ++ l) = true.
Proof.
  destruct op, s as [[] cats]; simpl; try discriminate; by intros _ ->.
Qed.

(** X10.  The calls that one category set forwards take turns.  Whatever
    [enable] and [disable] calls the set receives, the agent sees an
    [Enable], then a [Disable], then an [Enable], and so on, starting with
    an [Enable] when the set was not enabled and with a [Disable] when it
    was; every call is for the id of the writer handle and carries the
    categories of the set; the handle is never reset.  Through an empty
    writer handle nothing is forwarded. *)
Theorem set_calls_take_turns (env : Environment) (writer holder : ptr)
    (h : AgentWriterHandle) (ops : list NodeCategorySet.SetOp)
    (s : NodeCategorySet) (w : World) :
  binding_setup env writer holder h s w ->
  exists w' l,
    NodeCategorySet.set_run env holder ops w = Some (tt, w') /\
    calls w' = calls w ++ l /\
    handles w' = handles w /\
    (agent_ h = None -> l = []) /\
    forall agent,
      agent_ h = Some agent ->
      alternating (negb (enabled_ s)) l = true /\
      Forall (fun c => c = CallEnable agent (id_ h) (set_categories_ s) \/
                       c = CallDisable agent (id_ h) (set_categories_ s)) l.
Proof.
  revert s w. induction ops as [|op ops IH]; intros s w Hsetup.
  - exists w, []. rewrite app_nil_r. repeat split; try done.
  - cbn [NodeCategorySet.set_run].
    step_with (set_step_eq env writer holder h s w op Hsetup).
    destruct (IH _ _ (after_set_op_setup env writer holder h s w op Hsetup))
      as (w' & l & Hrun & Hcalls & Hhandles & Hnone & Hsome).
    exists w'. eexists. split; [exact Hrun|].
    rewrite Hcalls, after_set_op_calls, <- app_assoc.
    split; [reflexivity|]. split.
    { rewrite Hhandles. unfold after_set_op. by destruct (op_guard op s). }
    split.
    + intros Hag. rewrite (Hnone Hag), app_nil_r.
      destruct (op_guard op s); [|done].
      destruct op; unfold op_calls, enable_of, disable_of; by rewrite Hag.
    + intros agent Hag. destruct (Hsome agent Hag) as [Halt Hall].
      destruct (op_guard op s) eqn:Hguard; [|done]. split.
      * destruct h as [ag id]. simpl in Hag. subst ag.
        by apply alternating_guard.
      * assert (Hcats : set_categories_ (op_sets op s) = set_categories_ s)
          by done.
        rewrite Hcats in Hall.
        destruct op; unfold op_calls, enable_of, disable_of; rewrite Hag;
          (apply Forall_cons; split; [|done]); [by left | by right].
Qed.

Lemma set_step_counts (env : Environment) (writer holder : ptr)
    (h : AgentWriterHandle) (op : NodeCategorySet.SetOp) (w : World) :
  tracing_agent_writer env = Some writer ->
  handles w !! writer = Some h ->
  agent_alive w h ->
  exists w' l,
    NodeCategorySet.set_step env holder op w = Some (tt, w') /\
    calls w' = calls w ++ l /\
    handles w' = handles w /\
    agent_alive w' h /\
    (forall p, p <> holder ->
       category_sets w' !! p = category_sets w !! p) /\
    (forall p, set_categories_ <$> category_sets w' !! p =
               set_categories_ <$> category_sets w !! p) /\
    (forall agent id, disconnects agent id l = 0%nat) /\
    (is_Some (agent_ h) ->
     outstanding l =
       Z.of_nat (enabled_sets w') - Z.of_nat (enabled_sets w)).
Proof.
  intros Henv Hh Hlive.
  destruct (category_sets w !! holder) as [s|] eqn:Hs.
  - assert (Hsetup : binding_setup env writer holder h s w) by done.
    exists (after_set_op op holder h s w). eexists.
    split; [by apply (set_step_eq env writer)|].
    split; [apply after_set_op_calls|].
    destruct (after_set_op_setup env writer holder h s w op Hsetup)
      as (_ & _ & Hlive' & _).
    unfold after_set_op in *.
    destruct (op_guard op s) eqn:Hguard; simpl.
    + split; [done|]. split; [done|]. split.
      { intros p Hp. by rewrite lookup_insert_ne. }
      split.
      { intros p. destruct (decide (p = holder)) as [->|Hp].
        - by rewrite lookup_insert_eq, Hs.
        - by rewrite lookup_insert_ne. }
      split; [intros agent id; apply disconnects_op_calls|].
      intros [agent Hag]. unfold enabled_sets. simpl.
      pose proof (size_filter_insert disable_guard (category_sets w) holder s
                    (op_sets op s) Hs) as Hsize.
      destruct h as [ag id]. simpl in Hag. subst ag.
      destruct op, s as [[] [|c cats]]; try discriminate;
        cbv iota in Hsize; simpl in Hsize |- *; lia.
    + split; [done|]. split; [done|]. split; [done|]. split; [done|].
      split; [done|]. intros _. simpl. lia.
  - exists w, []. rewrite app_nil_r.
    split.
    { destruct op; simpl;
        unfold NodeCategorySet.Enable, NodeCategorySet.Disable;
        by rewrite Hs. }
    repeat split; try done. intros _. simpl. lia.
Qed.

(** X11.  The category sets of one environment, called in any order
    through the environment's writer handle; a call on an object that
    wraps no set does nothing.  Every call has a result.  No handle
    changes and the handle is never asked to disconnect; no set comes or
    goes and no set changes its categories; a set that received no call is
    as it was.  When the writer handle holds a registration, the [Enable]
    calls forwarded to the agent less the [Disable] calls are the number
    of enabled sets with a category at the end less their number at the
    start. *)
Theorem binding_counts_enabled_sets (env : Environment) (writer : ptr)
    (h : AgentWriterHandle) (ops : list (ptr * NodeCategorySet.SetOp))
    (w : World) :
  tracing_agent_writer env = Some writer ->
  handles w !! writer = Some h ->
  agent_alive w h ->
  exists w' l,
    binding_run env ops w = Some (tt, w') /\
    calls w' = calls w ++ l /\
    handles w' = handles w /\
    (forall p, p ∉ ops.*1 ->
       category_sets w' !! p = category_sets w !! p) /\
    (forall p, set_categories_ <$> category_sets w' !! p =
               set_categories_ <$> category_sets w !! p) /\
    (forall agent id, disconnects agent id l = 0%nat) /\
    (is_Some (agent_ h) ->
     outstanding l =
       Z.of_nat (enabled_sets w') - Z.of_nat (enabled_sets w)).
Proof.
  intros Henv. revert w.
  induction ops as [|[holder op] ops IH]; intros w Hh Hlive.
  - exists w, []. rewrite app_nil_r. repeat split; try done.
    intros _. simpl. lia.
  - destruct (set_step_counts env writer holder h op w Henv Hh Hlive)
      as (w1 & l1 & Hstep & Hcalls1 & Hhandles1 & Hlive1 & Hframe1 & Hcats1
          & Hno1 & Hout1).
    rewrite <- Hhandles1 in Hh.
    destruct (IH w1 Hh Hlive1)
      as (w' & l & Hrun & Hcalls & Hhandles & Hframe & Hcats & Hno & Hout).
    exists w', (l1 ++ l). cbn [binding_run]. step_with Hstep.
    split; [exact Hrun|].
    split; [by rewrite Hcalls, Hcalls1, app_assoc|].
    split; [congruence|]. split.
    { intros p Hp. rewrite fmap_cons in Hp. simpl in Hp.
      apply not_elem_of_cons in Hp as [Hne Hp].
      rewrite Hframe by done. by apply Hframe1. }
    split; [intros p; by rewrite Hcats|]. split.
    { intros agent id. by rewrite disconnects_app, Hno1, Hno. }
    intros Hbound. rewrite outstanding_app, Hout1, Hout by done. lia.
Qed.

End BindingSequences.

Lemma set_calls_take_turns_witness :
  binding_setup example_env 5 30
    {| agent_ := Some 1%positive; id_ := 1 |}
    {| enabled_ := false; set_categories_ := ["node.perf"; "v8"] |}
    example_binding /\
  exists w' l,
    NodeCategorySet.set_run example_env 30
      [NodeCategorySet.SetDisable; NodeCategorySet.SetEnable;
       NodeCategorySet.SetEnable; NodeCategorySet.SetDisable;
       NodeCategorySet.SetEnable]
      example_binding = Some (tt, w') /\
    calls w' = calls example_binding ++ l /\
    alternating true l = true.
Proof.
  assert (Hsetup : binding_setup example_env 5 30
                     {| agent_ := Some 1%positive; id_ := 1 |}
                     {| enabled_ := false;
                        set_categories_ := ["node.perf"; "v8"] |}
                     example_binding).
  { repeat split. intros agent [= <-]. by eexists. }
  split; [exact Hsetup|].
  destruct (set_calls_take_turns example_env 5 30 _
              [NodeCategorySet.SetDisable; NodeCategorySet.SetEnable;
               NodeCategorySet.SetEnable; NodeCategorySet.SetDisable;
               NodeCategorySet.SetEnable] _ _ Hsetup)
    as (w' & l & Hrun & Hcalls & _ & _ & Hturns).
  exists w', l. split; [exact Hrun|]. split; [exact Hcalls|].
  exact (proj1 (Hturns 1%positive eq_refl)).
Defined.

Lemma binding_counts_enabled_sets_witness :
  exists w' l,
    binding_run example_env
      [(30%positive, NodeCategorySet.SetEnable);
       (31%positive, NodeCategorySet.SetEnable);
       (40%positive, NodeCategorySet.SetEnable);
       (30%positive, NodeCategorySet.SetEnable)]
      example_binding = Some (tt, w') /\
    calls w' = calls example_binding ++ l /\
    outstanding l =
      Z.of_nat (enabled_sets w') - Z.of_nat (enabled_sets example_binding).
Proof.
  destruct (binding_counts_enabled_sets example_env 5
              {| agent_ := Some 1%positive; id_ := 1 |}
              [(30%positive, NodeCategorySet.SetEnable);
               (31%positive, NodeCategorySet.SetEnable);
               (40%positive, NodeCategorySet.SetEnable);
               (30%positive, NodeCategorySet.SetEnable)]
              example_binding)
    as (w' & l & Hrun & Hcalls & _ & _ & _ & _ & Hout).
  { reflexivity. }
  { reflexivity. }
  { intros agent [= <-]. by eexists. }
  exists w', l. split; [exact Hrun|]. split; [exact Hcalls|].
  apply Hout. by eexists.
Defined.

(** ** What a handle shows, and what it forwards *)

Section HandleCalls.
Context `{AgentMethods}.

Lemma observers_eq (w : World) (this : ptr) (h : AgentWriterHandle) :
  handles w !! this = Some h ->
  agent_alive w h ->
  AgentWriterHandle.empty this w =
    Some (bool_decide (agent_ h = None), w) /\
  AgentWriterHandle.agent this w = Some (agent_ h, w) /\
  AgentWriterHandle.GetTracingController this w =
    Some (match agent_ h with
          | Some agent =>
              match agents w !! agent with
              | Some a => Agent.GetTracingController a
              | None => None
              end
          | None => None
          end, w).
Proof.
  intros Hh Hlive.
  unfold AgentWriterHandle.empty, AgentWriterHandle.agent,
    AgentWriterHandle.GetTracingController.
  split; [by step_with (get_agent_eq _ _ _ Hh)|].
  split; [by apply get_agent_eq|].
  step_with (get_agent_eq _ _ _ Hh).
  destruct (agent_ h) as [agent|] eqn:Hag; [|done].
  destruct (Hlive agent Hag) as [a Ha].
  unfold Store.load_agent, bind. by rewrite Ha.
Qed.

(** X12.  A handle that received a registration through a chain of move
    constructions shows what the first handle of the chain showed before:
    [empty], [agent] and [GetTracingController] return on the last handle
    what they returned on the first, and none of them changes the
    store. *)
Theorem moved_handle_shows_the_same (source : ptr) (destinations : list ptr)
    (indeterminate : Z) (w : World) (hs : AgentWriterHandle) :
  handles w !! source = Some hs ->
  agent_alive w hs ->
  NoDup destinations ->
  (forall d, d ∈ destinations -> handles w !! d = None) ->
  exists w' owner e a c,
    move_chain source destinations indeterminate w = Some (owner, w') /\
    AgentWriterHandle.empty source w = Some (e, w) /\
    AgentWriterHandle.empty owner w' = Some (e, w') /\
    AgentWriterHandle.agent source w = Some (a, w) /\
    AgentWriterHandle.agent owner w' = Some (a, w') /\
    AgentWriterHandle.GetTracingController source w = Some (c, w) /\
    AgentWriterHandle.GetTracingController owner w' = Some (c, w').
Proof.
  intros Hs Hlive Hnd Hfresh.
  destruct (move_chain_eq source destinations indeterminate w hs
              Hs Hnd Hfresh)
    as (w' & Hrun & Hagents & _ & _ & Howner & _).
  assert (Hlive' : agent_alive w' hs).
  { intros agent Hag. rewrite Hagents. by apply Hlive. }
  destruct (observers_eq w source hs Hs Hlive) as (He & Ha & Hc).
  destruct (observers_eq w' _ hs Howner Hlive') as (He' & Ha' & Hc').
  rewrite Hagents in Hc'.
  exists w', (default source (last destinations)). do 3 eexists.
  split; [exact Hrun|]. split; [exact He|]. split; [exact He'|].
  split; [exact Ha|]. split; [exact Ha'|]. split; [exact Hc | exact Hc'].
Qed.

Lemma forwarded_ext (w w' : World) (r : Request) :
  handles w' = handles w -> forwarded w' r = forwarded w r.
Proof. unfold forwarded. by intros ->. Qed.

Lemma request_step (w : World) (r : Request) (h : AgentWriterHandle) :
  handles w !! request_handle r = Some h ->
  agent_alive w h ->
  exists w1,
    handle_step (request_call r) w = Some (tt, w1) /\
    calls w1 = calls w ++ forwarded w r /\
    handles w1 = handles w /\
    category_sets w1 = category_sets w /\
    forall agent, is_Some (agents w !! agent) -> is_Some (agents w1 !! agent).
Proof.
  intros Hh Hlive.
  pose proof (handle_call_eq w (request_handle r) h (request_op r)
                (request_categories r) Hh Hlive) as Hstep.
  unfold forwarded, request_call. rewrite Hh.
  destruct (request_op r);
    (eexists; split; [exact Hstep|]; simpl;
     split; [done|]; split; [done|]; split; [done|];
     intros agent Ha; destruct (agent_ h) as [ag|]; [|done];
     destruct (agents w !! ag) as [a|] eqn:Hag; [|done];
     destruct (decide (agent = ag)) as [->|Hne];
     [rewrite lookup_insert_eq; by eexists | by rewrite lookup_insert_ne]).
Qed.

(** X13.  A handle forwards every call.  [Enable] and [Disable] calls on
    handles of the store, in any number and order, reach the agents one
    for one and in that order, each with the id of its handle and the
    categories it was given; calls on empty handles are dropped.  Unlike
    a category set, a handle does not remember what it has enabled: the
    same call made twice is forwarded twice.  No handle and no category
    set changes. *)
Theorem handle_forwards_every_call (requests : list Request) (w : World) :
  all_alive w ->
  (forall r, r ∈ requests -> is_Some (handles w !! request_handle r)) ->
  exists w',
    handle_run (request_call <$> requests) w = Some (tt, w') /\
    calls w' = calls w ++ concat (forwarded w <$> requests) /\
    handles w' = handles w /\
    category_sets w' = category_sets w /\
    all_alive w'.
Proof.
  revert w. induction requests as [|r requests IH]; intros w Hlive Hthere.
  - exists w. simpl. rewrite app_nil_r. done.
  - destruct (Hthere r (list_elem_of_here _ _)) as [h Hh].
    destruct (request_step w r h Hh (Hlive _ _ Hh))
      as (w1 & Hstep1 & Hcalls1 & Hhandles1 & Hsets1 & Hagents1).
    destruct (IH w1) as (w' & Hrun & Hcalls & Hhandles & Hsets & Hlive').
    { apply (all_alive_after w); [done|done|].
      intros p h' Hp. right. exists p, h'. by rewrite <- Hhandles1. }
    { intros r' Hr'. rewrite Hhandles1. apply Hthere.
      by apply list_elem_of_further. }
    exists w'. rewrite fmap_cons. cbn [handle_run]. step_with Hstep1.
    split; [exact Hrun|]. split.
    { rewrite Hcalls, Hcalls1, <- app_assoc. f_equal. simpl. f_equal.
      f_equal. apply Forall_fmap_ext_1, Forall_forall. intros r' _.
      by apply forwarded_ext. }
    split; [congruence|]. split; [congruence|done].
Qed.

End HandleCalls.

Lemma moved_handle_shows_the_same_witness :
  exists w',
    move_chain 5 [8%positive; 9%positive] 0 example_world
      = Some (9%positive, w') /\
    AgentWriterHandle.GetTracingController 5 example_world
      = Some (Some 20%positive, example_world) /\
    AgentWriterHandle.GetTracingController 9 w'
      = Some (Some 20%positive, w').
Proof.
  destruct (moved_handle_shows_the_same 5 [8%positive; 9%positive] 0
              example_world {| agent_ := Some 1%positive; id_ := 1 |})
    as (w' & owner & e & a & c & Hrun & _ & _ & _ & _ & Hc & Hc').
  { reflexivity. }
  { intros agent [= <-]. by eexists. }
  { repeat (apply NoDup_cons; split;
            [rewrite ?not_elem_of_cons; repeat split;
             try discriminate; apply not_elem_of_nil|]).
    apply NoDup_nil_2. }
  { intros d Hin.
    repeat (apply elem_of_cons in Hin as [->|Hin]; [reflexivity|]).
    by apply elem_of_nil in Hin. }
  assert (owner = 9%positive) as ->.
  { vm_compute in Hrun. by injection Hrun as <- _. }
  assert (c = Some 20%positive) as ->.
  { vm_compute in Hc. by injection Hc as <-. }
  exists w'. split; [exact Hrun|]. split; [exact Hc | exact Hc'].
Defined.

Lemma handle_forwards_every_call_witness :
  exists w',
    handle_run
      (request_call <$>
         [ {| request_handle := 5; request_op := NodeCategorySet.SetEnable;
              request_categories := ["v8"] |};
           {| request_handle := 7; request_op := NodeCategorySet.SetEnable;
              request_categories := ["v8"] |};
           {| request_handle := 5; request_op := NodeCategorySet.SetEnable;
              request_categories := ["v8"] |};
           {| request_handle := 6; request_op := NodeCategorySet.SetDisable;
              request_categories := ["gc"] |} ])
      example_world = Some (tt, w') /\
    calls w' =
      [CallEnable 1 1 ["v8"]; CallEnable 1 1 ["v8"]; CallDisable 1 2 ["gc"]].
Proof.
  destruct (handle_forwards_every_call
              [ {| request_handle := 5;
                   request_op := NodeCategorySet.SetEnable;
                   request_categories := ["v8"] |};
                {| request_handle := 7;
                   request_op := NodeCategorySet.SetEnable;
                   request_categories := ["v8"] |};
                {| request_handle := 5;
                   request_op := NodeCategorySet.SetEnable;
                   request_categories := ["v8"] |};
                {| request_handle := 6;
                   request_op := NodeCategorySet.SetDisable;
                   request_categories := ["gc"] |} ]
              example_world example_world_alive)
    as (w' & Hrun & Hcalls & _).
  { intros r Hin.
    repeat (apply elem_of_cons in Hin as [->|Hin]; [by eexists|]).
    by apply elem_of_nil in Hin. }
  exists w'. split; [exact Hrun | exact Hcalls].
Defined.

(** ** Category sets that never reach the agent *)

Section SilentSets.
Context `{AgentMethods}.

Lemma set_step_skip (env : Environment) (holder : ptr)
    (op : NodeCategorySet.SetOp) (w : World) :
  (forall s, category_sets w !! holder = Some s -> op_guard op s = false) ->
  NodeCategorySet.set_step env holder op w = Some (tt, w).
Proof.
  intros Hguard.
  destruct op; simpl;
    unfold NodeCategorySet.Enable, NodeCategorySet.Disable,
      NodeCategorySet.GetCategories;
    destruct (category_sets w !! holder) as [s|]; try done;
    specialize (Hguard s eq_refl);
    unfold op_guard, enable_guard, disable_guard in Hguard;
    by rewrite Hguard.
Qed.

Lemma set_run_skip (env : Environment) (holder : ptr)
    (ops : list NodeCategorySet.SetOp) (w : World) :
  (forall s op, category_sets w !! holder = Some s ->
                op_guard op s = false) ->
  NodeCategorySet.set_run env holder ops w = Some (tt, w).
Proof.
  intros Hguard. induction ops as [|op ops IH]; [done|].
  cbn [NodeCategorySet.set_run].
  step_with (set_step_skip env holder op w (fun s => Hguard s op)).
  exact IH.
Qed.

(** X14.  A category set without categories never reaches the agent.  On
    a set that has no category, and on an object that wraps no set, any
    calls of [enable] and [disable] return with the store as it was: the
    set does not become enabled and the writer handle of the environment
    is not used, so the calls have a result also when the environment has
    no writer handle.  The set that [New] makes of an empty array is such
    a set. *)
Theorem set_without_categories_is_silent (env : Environment) (holder : ptr)
    (ops : list NodeCategorySet.SetOp) (w : World) :
  (forall s, category_sets w !! holder = Some s ->
             set_categories_ s = [] ->
             NodeCategorySet.set_run env holder ops w = Some (tt, w)) /\
  (category_sets w !! holder = None ->
   NodeCategorySet.set_run env holder ops w = Some (tt, w)) /\
  (forall writer, tracing_agent_writer env = Some writer ->
     exists w1,
       NodeCategorySet.New env holder [] w = Some (tt, w1) /\
       category_sets w1 !! holder =
         Some {| enabled_ := false; set_categories_ := [] |} /\
       NodeCategorySet.set_run env holder ops w1 = Some (tt, w1)).
Proof.
  split; [|split].
  - intros s Hs Hcats. apply set_run_skip. intros s' op Hs'.
    assert (s' = s) by congruence. subst s'.
    destruct op, s as [[] cats]; simpl in Hcats; subst cats; reflexivity.
  - intros Hs. apply set_run_skip. intros s op Hs'. congruence.
  - intros writer Henv. eexists.
    split; [unfold NodeCategorySet.New; simpl; rewrite Henv; reflexivity|].
    split; [simpl; apply lookup_insert_eq|].
    apply set_run_skip. simpl. intros s op Hs.
    rewrite lookup_insert_eq in Hs. injection Hs as <-. by destruct op.
Qed.

End SilentSets.

Lemma set_without_categories_is_silent_witness :
  NodeCategorySet.set_run {| tracing_agent_writer := None |} 31
    [NodeCategorySet.SetEnable; NodeCategorySet.SetDisable;
     NodeCategorySet.SetEnable] example_binding = Some (tt, example_binding) /\
  NodeCategorySet.set_run example_env 40
    [NodeCategorySet.SetEnable; NodeCategorySet.SetDisable;
     NodeCategorySet.SetEnable] example_binding = Some (tt, example_binding) /\
  exists w1,
    NodeCategorySet.New example_env 40 [] example_binding = Some (tt, w1) /\
    category_sets w1 !! 40%positive =
      Some {| enabled_ := false; set_categories_ := [] |} /\
    NodeCategorySet.set_run example_env 40
      [NodeCategorySet.SetEnable; NodeCategorySet.SetDisable;
       NodeCategorySet.SetEnable] w1 = Some (tt, w1).
Proof.
  split; [|split].
  - exact (proj1 (set_without_categories_is_silent
                    {| tracing_agent_writer := None |} 31
                    [NodeCategorySet.SetEnable; NodeCategorySet.SetDisable;
                     NodeCategorySet.SetEnable] example_binding)
             {| enabled_ := false; set_categories_ := [] |}
             eq_refl eq_refl).
  - exact (proj1 (proj2 (set_without_categories_is_silent example_env 40
                           [NodeCategorySet.SetEnable;
                            NodeCategorySet.SetDisable;
                            NodeCategorySet.SetEnable] example_binding))
             eq_refl).
  - exact (proj2 (proj2 (set_without_categories_is_silent example_env 40
                           [NodeCategorySet.SetEnable;
                            NodeCategorySet.SetDisable;
                            NodeCategorySet.SetEnable] example_binding))
             5%positive eq_refl).
Defined.
